(** * uniqueRefreshPaths: the minimal set of directories to bubble

    A shallow embedding of [modules/renter/refreshpaths.go].  The helper
    keeps two maps used as sets, [childDirs] and [parentDirs]; [callAdd]
    records a directory and walks up its chain of parents, and the two
    refresh methods range over [childDirs].

    The maps [map[modules.TurtleDexPath]struct{}] are finite sets of paths
    ([gset]); Go's nilable [error] is [option error]; the [for] loop of
    [callAdd] is a recursion on an explicit bound of iterations. *)

From Stdlib Require Import Ascii NArith.
From stdpp Require Import gmap strings list relations.

#[local] Set Warnings "-register-all,-clear-no-such-hyp".

(** ** The [errors] package

    [errors.AddContext] and [errors.Compose] come from an external package.
    Errors are kept as terms: a base error, an error extended with a context
    string, and the set of errors [Compose] remembers. *)

Inductive error : Type :=
| ErrNew (msg : string)
| ErrContext (err : error) (ctx : string)
| ErrSet (errs : list error).

(** [errors.AddContext(err, s)] for a non-nil [err]. *)
Definition AddContext (err : error) (s : string) : error := ErrContext err s.

(** [errors.Compose(a, b)]: nil inputs are ignored, and the result is nil
    when every input is nil. *)
Definition Compose (a b : option error) : option error :=
  match omap id [a; b] with
  | [] => None
  | errs => Some (ErrSet errs)
  end.

(** [Contains e e']: the error [e'] is remembered somewhere inside [e]. *)
Inductive Contains : error → error → Prop :=
| Contains_here e : Contains e e
| Contains_context e ctx e' : Contains e e' → Contains (ErrContext e ctx) e'
| Contains_set errs e e' : e ∈ errs → Contains e e' → Contains (ErrSet errs) e'.

(** A Go result [(T, error)]. *)
Inductive result (A : Type) : Type :=
| Ok (a : A)
| Err (e : error).
Arguments Ok {A} a.
Arguments Err {A} e.

(** ** The path type *)

(** Modelled from the spec: the type [modules.TurtleDexPath], which
    [refreshpaths.go] imports.  It is an immutable hierarchical identifier,
    usable as a map key, with [IsRoot], [Dir] (the parent, or an error) and
    the printed form that [%v] shows. *)

Class TurtleDexPath (P : Type) `{Countable P} : Type := {
  IsRoot : P → bool;
  Dir : P → result P;
  String : P → string;
}.

Section refreshpaths.
Context {P : Type} {EqP : EqDecision P} {CountP : Countable P}
        {PathP : TurtleDexPath P}.

(** The struct, without its mutex and its back pointer to the renter: every
    method holds the mutex for its whole body, so calls are atomic. *)
Record uniqueRefreshPaths : Type := mkURP {
  childDirs : gset P;
  parentDirs : gset P;
}.

Definition newUniqueRefreshPaths : uniqueRefreshPaths :=
  {| childDirs := ∅; parentDirs := ∅ |}.

(** [fmt.Sprintf("unable to get parent directory of %v", path)] *)
Definition contextStr (path : P) : string :=
  "unable to get parent directory of " +:+ String path.

(** The loop [for !path.IsRoot() { ... }] of [callAdd].  [fuel] bounds the
    number of iterations; [None] means the bound was reached. *)
Fixpoint callAdd_loop (fuel : nat) (urp : uniqueRefreshPaths) (path : P)
  : option (uniqueRefreshPaths * option error) :=
  if IsRoot path then Some (urp, None)
  else
    match fuel with
    | O => None
    | S fuel' =>
        match Dir path with
        | Err err => Some (urp, Some (AddContext err (contextStr path)))
        | Ok parentDir =>
            let children :=
              if decide (parentDir ∈ childDirs urp)
              then childDirs urp ∖ {[parentDir]}
              else childDirs urp in
            let parents := {[parentDir]} ∪ parentDirs urp in
            callAdd_loop fuel' {| childDirs := children; parentDirs := parents |}
                         parentDir
        end
    end.

Definition callAdd (fuel : nat) (urp : uniqueRefreshPaths) (path : P)
  : option (uniqueRefreshPaths * option error) :=
  if decide (path ∈ parentDirs urp) then Some (urp, None)
  else if decide (path ∈ childDirs urp) then Some (urp, None)
  else
    callAdd_loop fuel
      {| childDirs := {[path]} ∪ childDirs urp; parentDirs := parentDirs urp |}
      path.

Definition callNumChildDirs (urp : uniqueRefreshPaths) : nat :=
  size (childDirs urp).

Definition callNumParentDirs (urp : uniqueRefreshPaths) : nat :=
  size (parentDirs urp).

(** *** Parents and ancestors

    [parent_of p q]: the loop of [callAdd], at the non-root path [p], gets
    [q] from [p.Dir()].  The root has no parent. *)
Definition parent_of (p q : P) : Prop := IsRoot p = false ∧ Dir p = Ok q.

(** [proper_ancestor a p]: [a] is reached from [p] by one or more parent
    steps. *)
Definition proper_ancestor (a p : P) : Prop := tc parent_of p a.

(** [climbs p l x]: starting at [p], taking the parent again and again
    visits the paths of [l] in turn and stands at [x]. *)
Inductive climbs : P → list P → P → Prop :=
| climbs_here p : climbs p [] p
| climbs_up p q l x : parent_of p q → climbs q l x → climbs p (q :: l) x.

(** The tracker after the loop has handled the parents [l]: each one is
    taken out of [childDirs] and put into [parentDirs]. *)
Definition moved (l : list P) (urp : uniqueRefreshPaths) : uniqueRefreshPaths :=
  {| childDirs := childDirs urp ∖ list_to_set l;
     parentDirs := list_to_set l ∪ parentDirs urp |}.

(** A path at which the loop stops: the root, or a path whose [Dir] fails. *)
Definition stops (x : P) : Prop := IsRoot x = true ∨ ∃ e, Dir x = Err e.

(** What the loop returns when it stops at [x]. *)
Definition stop_error (x : P) : option error :=
  if IsRoot x then None
  else
    match Dir x with
    | Err err => Some (AddContext err (contextStr x))
    | Ok _ => None
    end.

(** The iterations the loop enters on the climb [l] that stops at [x]. *)
Definition iterations (l : list P) (x : P) : nat :=
  if IsRoot x then length l else S (length l).

(** One call of [callAdd] that returned, with any result. *)
Definition add_step (urp urp' : uniqueRefreshPaths) : Prop :=
  ∃ fuel path err, callAdd fuel urp path = Some (urp', err).

(** The trackers that a sequence of [callAdd] calls builds from a new one. *)
Definition reachable (urp : uniqueRefreshPaths) : Prop :=
  rtc add_step newUniqueRefreshPaths urp.

(** A caller adding the paths of a list in turn, going on after an error;
    a call that does not return within [fuel] leaves the tracker alone. *)
Definition callAdds (fuel : nat) (paths : list P) (urp : uniqueRefreshPaths)
  : uniqueRefreshPaths :=
  foldl (λ u path, match callAdd fuel u path with
                   | Some (u', _) => u'
                   | None => u
                   end) urp paths.

(** [added ps urp]: the tracker [urp] is what a new tracker has become after
    [callAdd] was called on the paths of [ps] in turn, each call returning,
    with nil or with an error. *)
Inductive added : list P → uniqueRefreshPaths → Prop :=
| added_new : added [] newUniqueRefreshPaths
| added_call ps urp fuel path urp' err :
    added ps urp → callAdd fuel urp path = Some (urp', err) →
    added (ps ++ [path]) urp'.

(** Whether every call made by [callAdds] returns within [fuel]. *)
Fixpoint callAdds_return (fuel : nat) (paths : list P)
  (urp : uniqueRefreshPaths) : bool :=
  match paths with
  | [] => true
  | path :: paths' =>
      match callAdd fuel urp path with
      | Some (urp', _) => callAdds_return fuel paths' urp'
      | None => false
      end
  end.

(** [covered S p]: a bubble started at each directory of [S], going from
    parent to parent, passes through [p]. *)
Definition covered (S : gset P) (p : P) : Prop :=
  p ∈ S ∨ ∃ s, s ∈ S ∧ proper_ancestor p s.

(** [callAdd] has put [path] into [childDirs] when its loop starts. *)
Definition inserted (path : P) (urp : uniqueRefreshPaths) : uniqueRefreshPaths :=
  {| childDirs := {[path]} ∪ childDirs urp; parentDirs := parentDirs urp |}.

(** The two maps share no path. *)
Definition disjoint_dirs (urp : uniqueRefreshPaths) : Prop :=
  childDirs urp ## parentDirs urp.

(** The parent of every tracked path is in [parentDirs]. *)
Definition parents_closed (urp : uniqueRefreshPaths) : Prop :=
  ∀ x q, x ∈ childDirs urp ∪ parentDirs urp → parent_of x q →
         q ∈ parentDirs urp.

(** *** Ranging over [childDirs]

    [for sp := range urp.childDirs] visits every key once, in an order Go
    does not fix.  [keys] is the order of one execution. *)
Definition range_order (m : gset P) (keys : list P) : Prop :=
  keys ≡ₚ elements m.

(** [go urp.r.callThreadedBubbleMetadata(sp)]: a started goroutine. *)
Inductive goroutine : Type :=
| GoThreadedBubbleMetadata (sp : P).

Definition goroutine_path (g : goroutine) : P :=
  match g with GoThreadedBubbleMetadata sp => sp end.

(** The loop of [callRefreshAll]; [started] lists the goroutines started so
    far, oldest first. *)
Fixpoint callRefreshAll_loop (keys : list P) (started : list goroutine)
  : list goroutine :=
  match keys with
  | [] => started
  | sp :: keys' =>
      callRefreshAll_loop keys' (started ++ [GoThreadedBubbleMetadata sp])
  end.

Definition callRefreshAll (keys : list P) (urp : uniqueRefreshPaths)
  (started : list goroutine) : uniqueRefreshPaths * list goroutine :=
  (urp, callRefreshAll_loop keys started).

(** The renter, for [callRefreshAllBlocking]: a state [R] and the method
    [managedBubbleMetadata], which may change it and may fail. *)
Section blocking.
Variable R : Type.
Variable managedBubbleMetadata : P → R → R * option error.

(** The loop of [callRefreshAllBlocking].  [r] is the renter, [err] the
    named result; [log] records each call made and what it returned, and is
    kept for the statements only. *)
Fixpoint callRefreshAllBlocking_loop (keys : list P) (r : R)
  (log : list (P * option error)) (err : option error)
  : R * list (P * option error) * option error :=
  match keys with
  | [] => (r, log, err)
  | sp :: keys' =>
      let '(r', e) := managedBubbleMetadata sp r in
      callRefreshAllBlocking_loop keys' r' (log ++ [(sp, e)]) (Compose err e)
  end.

(** Calling [managedBubbleMetadata] on every key in turn, whatever each call
    returns: the renter at the end, and each key with its result. *)
Fixpoint attempt_all (keys : list P) (r : R) : R * list (P * option error) :=
  match keys with
  | [] => (r, [])
  | sp :: keys' =>
      let '(r', e) := managedBubbleMetadata sp r in
      let '(r'', rest) := attempt_all keys' r' in
      (r'', (sp, e) :: rest)
  end.

Definition callRefreshAllBlocking (keys : list P) (urp : uniqueRefreshPaths)
  (r : R) : uniqueRefreshPaths * R * list (P * option error) * option error :=
  let '(r', log, err) := callRefreshAllBlocking_loop keys r [] None in
  (urp, r', log, err).

End blocking.

End refreshpaths.

Arguments uniqueRefreshPaths P {_ _}.
Arguments goroutine P : clear implicits.

(** ** A slash-delimited path type, to run the tracker on

    A path is the list of its elements, deepest first; the root is the empty
    list.  The parent of a path drops the deepest element; a path whose
    deepest element is empty is corrupt and has no parent to give. *)
Module SlashPath.

Definition t : Type := list string.

Definition dir (p : t) : result t :=
  match p with
  | [] => Ok []
  | s :: rest =>
      if String.eqb s "" then Err (ErrNew "invalid path") else Ok rest
  end.

Definition show (p : t) : string :=
  foldl (λ acc s, acc +:+ "/" +:+ s) "" (rev p).

#[export] Instance path : TurtleDexPath t :=
  {| IsRoot p := match p with [] => true | _ => false end;
     Dir := dir;
     String := show |}.

Definition root : t := [].
Definition a : t := ["a"].
Definition ab : t := ["b"; "a"].
Definition abc : t := ["c"; "b"; "a"].
Definition abd : t := ["d"; "b"; "a"].
(** [/a//d]: its parent [/a/] ends in an empty element. *)
Definition corrupt : t := ["d"; ""; "a"].
Definition corrupt_dir : t := [""; "a"].

Definition new : uniqueRefreshPaths t := newUniqueRefreshPaths.

(** Three tracked directories: the blocking bubble below fails on the first
    and the last. *)
Definition dirA : t := ["bad"; "a"].
Definition dirB : t := ["ok"; "a"].
Definition dirC : t := ["bad"; "c"].
Definition tracked : uniqueRefreshPaths t := callAdds 3 [dirA; dirB; dirC] new.

(** A renter whose state counts the calls made, and whose blocking bubble
    fails on the directories named [bad]. *)
Definition bubble (sp : t) (calls : nat) : nat * option error :=
  (S calls,
   match sp with
   | s :: _ => if String.eqb s "bad" then Some (ErrNew (show sp)) else None
   | [] => None
   end).

End SlashPath.

(** * build/appdata.go: directories and the API password

    The functions of [appdata.go] read the environment, the file system and
    a random source.  These are given by a [System]: the environment and the
    operating system are read only, the file system and the random source
    are a world [W] that the calls pass along. *)

Module appdata.

(** ** Library functions *)

(** [encoding/hex]: [EncodeToString] writes two digits of [hextable] for
    each byte, the high four bits first. *)
Definition hextable : list ascii := String.list_ascii_of_string "0123456789abcdef".

Definition hexdigit (n : N) : ascii := nth (N.to_nat n) hextable "0"%char.

Fixpoint hex_Encode (src : list ascii) : list ascii :=
  match src with
  | [] => []
  | v :: src' =>
      hexdigit (N.shiftr (N_of_ascii v) 4)
      :: hexdigit (N.land (N_of_ascii v) 15)
      :: hex_Encode src'
  end.

Definition hex_EncodeToString (src : list ascii) : string :=
  String.string_of_list_ascii (hex_Encode src).

(** [strings.TrimSpace]: the table [asciiSpace] holds tab, line feed,
    vertical tab, form feed, carriage return and space. *)
Definition asciiSpace (c : ascii) : bool :=
  let n := N_of_ascii c in
  ((9 <=? n)%N && (n <=? 13)%N) || (n =? 32)%N.

(** One scan of [TrimSpace] over ASCII space: what is left when it stops,
    and whether it stopped at a byte that is not ASCII ([utf8.RuneSelf] and
    above). *)
Fixpoint skip_asciiSpace (s : list ascii) : bool * list ascii :=
  match s with
  | [] => (false, [])
  | c :: s' =>
      if (128 <=? N_of_ascii c)%N then (true, s)
      else if asciiSpace c then skip_asciiSpace s'
      else (false, s)
  end.

(** A byte that no scan of [TrimSpace] goes past: ASCII and not space. *)
Definition plain (c : ascii) : bool :=
  (N_of_ascii c <? 128)%N && negb (asciiSpace c).

(** [TrimSpace] scans from the start, then from the end; at a byte that is
    not ASCII it hands over to [TrimFunc], or [TrimRightFunc], with
    [unicode.IsSpace], which are given here as [trimFunc] and
    [trimRightFunc]. *)
Definition TrimSpace (trimFunc trimRightFunc : string → string) (s : string)
  : string :=
  match skip_asciiSpace (String.list_ascii_of_string s) with
  | (true, rest) => trimFunc (String.string_of_list_ascii rest)
  | (false, rest) =>
      match skip_asciiSpace (rev rest) with
      | (true, kept) => trimRightFunc (String.string_of_list_ascii (rev kept))
      | (false, kept) => String.string_of_list_ascii (rev kept)
      end
  end.

(** ** The system *)

(** What [appdata.go] takes from outside the file: the names of the
    environment variables, which are constants of the package declared in
    another file; [runtime.GOOS]; the environment read by [os.Getenv];
    [filepath.Join]; and the calls on the file system and the random source,
    over a world [W]. *)
Class System (W : Type) : Type := {
  siaAPIPassword : string;
  ttdxdDataDir : string;
  siaDataDir : string;
  siaWalletPassword : string;
  siaExchangeRate : string;
  GOOS : string;
  environ : gmap string string;
  filepath_Join : list string → string;
  ioutil_ReadFile : string → W → result (list ascii);
  os_IsNotExist : error → bool;
  os_MkdirAll : string → N → W → W * option error;
  os_Chmod : string → N → W → W * option error;
  ioutil_WriteFile : string → list ascii → N → W → W * option error;
  fastrand_Bytes : nat → W → W * list ascii;
  strings_TrimFunc_IsSpace : string → string;
  strings_TrimRightFunc_IsSpace : string → string;
}.

(** A call that passes the world along and may fail; binding stops at the
    first error, as every [if err != nil] that returns the error does. *)
Definition io (W A : Type) : Type := W → W * result A.

#[export] Instance io_ret {W} : MRet (io W) := λ A a w, (w, Ok a).

#[export] Instance io_bind {W} : MBind (io W) :=
  λ A B k m w, match m w with
               | (w', Ok a) => k a w'
               | (w', Err e) => (w', Err e)
               end.

(** A call that returns only an error. *)
Definition check {W} (f : W → W * option error) : io W unit :=
  λ w, match f w with
       | (w', None) => (w', Ok tt)
       | (w', Some e) => (w', Err e)
       end.

(** A call that cannot fail. *)
Definition total {W A} (f : W → W * A) : io W A :=
  λ w, let '(w', a) := f w in (w', Ok a).

Section functions.
Context {W : Type} {Sys : System W}.

(** [os.Getenv]: the value of the variable, empty when it is not set. *)
Definition os_Getenv (key : string) : string := default "" (environ !! key).

(** The file modes [0700] and [0600]. *)
Definition mode_0700 : N := 448.
Definition mode_0600 : N := 384.

Definition defaultTurtleDexDir : string :=
  if bool_decide (GOOS = "windows")
  then filepath_Join [os_Getenv "LOCALAPPDATA"; "TurtleDex"]
  else if bool_decide (GOOS = "darwin")
  then filepath_Join [os_Getenv "HOME"; "Library"; "Application Support";
                      "TurtleDex"]
  else filepath_Join [os_Getenv "HOME"; ".sia"].

Definition defaultSkynetDir : string :=
  if bool_decide (GOOS = "windows")
  then filepath_Join [os_Getenv "LOCALAPPDATA"; "Skynet"]
  else if bool_decide (GOOS = "darwin")
  then filepath_Join [os_Getenv "HOME"; "Library"; "Application Support";
                      "Skynet"]
  else filepath_Join [os_Getenv "HOME"; ".skynet"].

Definition TurtleDexdDataDir : string := os_Getenv ttdxdDataDir.

Definition ProfileDir : string := filepath_Join [TurtleDexdDataDir; "profile"].

Definition TurtleDexDir : string :=
  let siaDir := os_Getenv siaDataDir in
  if bool_decide (siaDir = "") then defaultTurtleDexDir else siaDir.

Definition SkynetDir : string := defaultSkynetDir.

Definition WalletPassword : string := os_Getenv siaWalletPassword.

Definition ExchangeRate : string := os_Getenv siaExchangeRate.

Definition apiPasswordFilePath : string :=
  filepath_Join [TurtleDexDir; "apipassword"].

Definition createAPIPasswordFile : io W string :=
  _ ← check (os_MkdirAll TurtleDexDir mode_0700);
  _ ← check (os_Chmod TurtleDexDir mode_0700);
  bytes ← total (fastrand_Bytes 16);
  let pw := hex_EncodeToString bytes in
  _ ← check (ioutil_WriteFile apiPasswordFilePath
               (String.list_ascii_of_string (pw +:+ String.String "010"%char ""))
               mode_0600);
  mret pw.

Definition APIPassword : io W string :=
  λ w,
    let pw := os_Getenv siaAPIPassword in
    if bool_decide (pw ≠ "") then (w, Ok pw)
    else
      let path := apiPasswordFilePath in
      match ioutil_ReadFile path w with
      | Ok pwFile =>
          (w, Ok (TrimSpace strings_TrimFunc_IsSpace
                    strings_TrimRightFunc_IsSpace
                    (String.string_of_list_ascii pwFile)))
      | Err err =>
          if negb (os_IsNotExist err) then (w, Err err)
          else (pw ← createAPIPasswordFile; mret pw) w
      end.

(** After a file was written, reading it gives what was written. *)
Definition read_after_write : Prop :=
  ∀ path data mode w w',
    ioutil_WriteFile path data mode w = (w', None) →
    ioutil_ReadFile path w' = Ok data.

(** [fastrand.Bytes n] gives [n] bytes. *)
Definition bytes_length : Prop :=
  ∀ n w, length (fastrand_Bytes n w).2 = n.

End functions.

(** A small system to run the functions on: the world is the files, by
    path, and a counter that the random bytes are drawn from; directories
    are always made. *)
Definition world : Type := gmap string (list ascii) * nat.

Definition not_exist : error := ErrNew "file does not exist".

#[export] Instance small : System world :=
  {| siaAPIPassword := "API_PASSWORD";
     ttdxdDataDir := "DAEMON_DATA_DIR";
     siaDataDir := "DATA_DIR";
     siaWalletPassword := "WALLET_PASSWORD";
     siaExchangeRate := "EXCHANGE_RATE";
     GOOS := "linux";
     environ := {[ "HOME" := "/home/u" ]};
     filepath_Join elems := foldr (λ e acc, if bool_decide (acc = "") then e
                                             else e +:+ "/" +:+ acc) "" elems;
     ioutil_ReadFile path w :=
       match w.1 !! path with Some data => Ok data | None => Err not_exist end;
     os_IsNotExist e := match e with ErrNew _ => true | _ => false end;
     os_MkdirAll _ _ w := (w, None);
     os_Chmod _ _ w := (w, None);
     ioutil_WriteFile path data _ w := ((<[path := data]> w.1, w.2), None);
     fastrand_Bytes n w :=
       ((w.1, w.2 + n), (λ i, ascii_of_nat (17 * (w.2 + i))) <$> seq 0 n);
     strings_TrimFunc_IsSpace s := s;
     strings_TrimRightFunc_IsSpace s := s |}.

Definition empty_world : world := (∅, 3).

End appdata.

(** ** Properties of the parent chain *)

Section chain.
Context {P : Type} {EqP : EqDecision P} {CountP : Countable P}
        {PathP : TurtleDexPath P}.
Implicit Types (p q a x : P) (l : list P) (urp : uniqueRefreshPaths P).

Lemma parent_of_fun p q q' : parent_of p q → parent_of p q' → q = q'.
Proof. intros [_ Hq] [_ Hq']. congruence. Qed.

Lemma climbs_app p l1 x l2 y :
  climbs p l1 x → climbs x l2 y → climbs p (l1 ++ l2) y.
Proof.
  induction 1 as [|p q l x Hpq Hc IH]; intros Hxy; [done|].
  simpl. apply climbs_up; auto.
Qed.

(** A visited path starts the rest of the climb. *)
Lemma climbs_split p l x a :
  climbs p l x → a ∈ l →
  ∃ l1 l2, l = l1 ++ a :: l2 ∧ climbs p (l1 ++ [a]) a ∧ climbs a l2 x.
Proof.
  induction 1 as [p|p q l x Hpq Hc IH]; intros Ha.
  - by apply elem_of_nil in Ha.
  - apply elem_of_cons in Ha as [->|Ha].
    + exists [], l. repeat split; [|done].
      apply climbs_up; [done | constructor].
    + destruct (IH Ha) as (l1 & l2 & -> & Hc1 & Hc2).
      exists (q :: l1), l2. repeat split; [|done].
      simpl. by apply climbs_up.
Qed.

(** Every visited path is a proper ancestor of the start. *)
Lemma climbs_ancestor p l x a : climbs p l x → a ∈ l → proper_ancestor a p.
Proof.
  induction 1 as [p|p q l x Hpq Hc IH]; intros Ha.
  - by apply elem_of_nil in Ha.
  - apply elem_of_cons in Ha as [->|Ha].
    + by apply tc_once.
    + eapply tc_l; [exact Hpq | by apply IH].
Qed.

Lemma stops_no_parent x q : stops x → ¬ parent_of x q.
Proof. intros [Hr|[e He]] [Hnr Hd]; congruence. Qed.

(** A climb that ends where the loop stops has visited every proper
    ancestor of its start. *)
Lemma climbs_complete p l x a :
  climbs p l x → stops x → proper_ancestor a p → a ∈ l.
Proof.
  intros Hc Hx Ha. unfold proper_ancestor in Ha.
  revert l Hc. induction Ha as [p a Hpa|p q a Hpq Hqa IH]; intros l Hc.
  - destruct Hc as [p|p q l x Hpq Hc].
    + by destruct (stops_no_parent _ _ Hx Hpa).
    + rewrite (parent_of_fun _ _ _ Hpa Hpq). apply elem_of_cons. by left.
  - destruct Hc as [p|p q' l x Hpq' Hc].
    + by destruct (stops_no_parent _ _ Hx Hpq).
    + rewrite <- (parent_of_fun _ _ _ Hpq Hpq') in Hc.
      apply elem_of_cons. right. by apply IH.
Qed.

(** The climb from a path to where the loop stops is unique. *)
Lemma climbs_stop_unique p l x l' x' :
  climbs p l x → stops x → climbs p l' x' → stops x' → l = l' ∧ x = x'.
Proof.
  intros Hc Hx. revert l' x'.
  induction Hc as [p|p q l x Hpq Hc IH]; intros l' x' Hc' Hx'.
  - inversion Hc' as [|p' q' l'' x'' Hpq' Hc'']; subst; [done|].
    by destruct (stops_no_parent _ _ Hx Hpq').
  - inversion Hc' as [|p' q' l'' x'' Hpq' Hc'']; subst.
    + by destruct (stops_no_parent _ _ Hx' Hpq).
    + assert (q' = q) as -> by (by eapply parent_of_fun).
      by destruct (IH Hx _ _ Hc'' Hx') as [-> ->].
Qed.

Lemma climbs_end p l x : climbs p l x → p = x ∨ x ∈ l.
Proof.
  induction 1 as [p|p q l x Hpq Hc IH]; [by left|].
  right. apply elem_of_cons. destruct IH as [->|Hin]; [by left | by right].
Qed.

(** The start of such a climb is not among the paths it visits: otherwise
    the parents would go round in a circle and never stop. *)
Lemma climbs_start_fresh p l x : climbs p l x → stops x → p ∉ l.
Proof.
  intros Hc Hx Hin.
  destruct (climbs_split _ _ _ _ Hc Hin) as (l1 & l2 & -> & _ & Hc2).
  destruct (climbs_stop_unique _ _ _ _ _ Hc Hx Hc2 Hx) as [Hl _].
  apply (f_equal length) in Hl. rewrite length_app in Hl. simpl in Hl. lia.
Qed.

(** ** The loop of [callAdd] *)

Lemma moved_nil urp : moved [] urp = urp.
Proof.
  destruct urp as [c pa]. unfold moved. simpl. f_equal; set_solver.
Qed.

Lemma moved_cons q l urp :
  moved l {| childDirs := if decide (q ∈ childDirs urp)
                          then childDirs urp ∖ {[q]} else childDirs urp;
             parentDirs := {[q]} ∪ parentDirs urp |}
  = moved (q :: l) urp.
Proof.
  unfold moved. simpl. f_equal; [case_decide|]; set_solver.
Qed.

(** A loop that returns has climbed to a path where it stops, and has moved
    the parents it visited. *)
Lemma callAdd_loop_inv fuel urp path urp' r :
  callAdd_loop fuel urp path = Some (urp', r) →
  ∃ l x, climbs path l x ∧ stops x ∧ iterations l x ≤ fuel ∧
         urp' = moved l urp ∧ r = stop_error x.
Proof.
  revert urp path. induction fuel as [|fuel IH]; intros urp path; simpl.
  - destruct (IsRoot path) eqn:Hr; [|done]. intros [= <- <-].
    exists [], path. unfold iterations, stop_error, stops. rewrite Hr, moved_nil.
    split_and!; [constructor | by left | done..].
  - destruct (IsRoot path) eqn:Hr.
    + intros [= <- <-]. exists [], path.
      unfold iterations, stop_error, stops. rewrite Hr, moved_nil.
      split_and!; [constructor | by left | simpl; lia | done..].
    + destruct (Dir path) as [q|e] eqn:Hd.
      * intros Hloop. destruct (IH _ _ Hloop) as (l & x & Hc & Hx & Hn & -> & ->).
        exists (q :: l), x. rewrite moved_cons.
        split_and!; [by apply climbs_up | done | | done..].
        revert Hn. unfold iterations. destruct (IsRoot x); simpl; lia.
      * intros [= <- <-]. exists [], path.
        unfold iterations, stop_error, stops. rewrite Hr, Hd, moved_nil.
        split_and!; [constructor | right; by exists e | simpl; lia | done..].
Qed.

(** A climb to a path where the loop stops makes the loop return, given the
    iterations it needs. *)
Lemma callAdd_loop_run fuel urp path l x :
  climbs path l x → stops x → iterations l x ≤ fuel →
  callAdd_loop fuel urp path = Some (moved l urp, stop_error x).
Proof.
  intros Hc Hx. revert fuel urp.
  induction Hc as [p|p q l x [Hr Hd] Hc IH]; intros fuel urp Hn.
  - rewrite moved_nil. unfold stop_error, iterations in *.
    destruct Hx as [Hr|[e He]].
    + destruct fuel; simpl; by rewrite Hr.
    + destruct (IsRoot p) eqn:Hr; [destruct fuel; simpl; by rewrite Hr|].
      destruct fuel as [|fuel]; [simpl in Hn; lia|].
      simpl. by rewrite Hr, He.
  - assert (∃ fuel', fuel = S fuel' ∧ iterations l x ≤ fuel') as (fuel' & -> & Hn').
    { revert Hn. unfold iterations. destruct (IsRoot x); simpl; intros Hn;
        (destruct fuel as [|fuel']; [lia | exists fuel'; split; [done | lia]]). }
    simpl. rewrite Hr, Hd, (IH Hx _ _ Hn'). by rewrite moved_cons.
Qed.

(** ** [callAdd] *)

(** The two ways [callAdd] returns: at once, for a path it already tracks,
    or after the loop, for a new one. *)
Lemma callAdd_inv fuel urp path urp' r :
  callAdd fuel urp path = Some (urp', r) →
  ((path ∈ parentDirs urp ∨ path ∈ childDirs urp) ∧ urp' = urp ∧ r = None)
  ∨ ((path ∉ parentDirs urp) ∧ (path ∉ childDirs urp) ∧
     ∃ l x, climbs path l x ∧ stops x ∧ iterations l x ≤ fuel ∧
            urp' = moved l (inserted path urp) ∧ r = stop_error x).
Proof.
  unfold callAdd. case_decide as Hp; [intros [= <- <-]; left; auto|].
  case_decide as Hc; [intros [= <- <-]; left; auto|].
  intros Hloop. right. split_and!; [done..|].
  by apply callAdd_loop_inv.
Qed.

Lemma callAdd_run fuel urp path l x :
  path ∉ parentDirs urp → path ∉ childDirs urp →
  climbs path l x → stops x → iterations l x ≤ fuel →
  callAdd fuel urp path = Some (moved l (inserted path urp), stop_error x).
Proof.
  intros Hp Hc Hcl Hx Hn. unfold callAdd.
  rewrite decide_False, decide_False by done.
  by apply callAdd_loop_run.
Qed.

Lemma callAdd_tracked fuel urp path :
  path ∈ parentDirs urp ∨ path ∈ childDirs urp →
  callAdd fuel urp path = Some (urp, None).
Proof.
  intros Hin. unfold callAdd. case_decide; [done|].
  case_decide; [done|]. by destruct Hin.
Qed.

Lemma parents_closed_ancestor urp x a :
  parents_closed urp → x ∈ childDirs urp ∪ parentDirs urp →
  proper_ancestor a x → a ∈ parentDirs urp.
Proof.
  intros Hcl Hx Ha. unfold proper_ancestor in Ha.
  induction Ha as [x a Hxa|x q a Hxq Hqa IH]; [by eapply Hcl|].
  apply IH. apply elem_of_union_r. by eapply Hcl.
Qed.

(** One returning call keeps the maps disjoint. *)
Lemma callAdd_keeps_disjoint fuel urp path urp' r :
  disjoint_dirs urp → callAdd fuel urp path = Some (urp', r) →
  disjoint_dirs urp'.
Proof.
  intros Hdis Hadd.
  destruct (callAdd_inv _ _ _ _ _ Hadd)
    as [(_ & -> & _)|(Hp & Hc & l & x & Hcl & Hx & _ & -> & _)]; [done|].
  pose proof (climbs_start_fresh _ _ _ Hcl Hx) as Hfresh.
  unfold disjoint_dirs, moved, inserted in *. simpl. set_solver.
Qed.

(** One returning call keeps the parents closed. *)
Lemma callAdd_keeps_closed fuel urp path urp' r :
  parents_closed urp → callAdd fuel urp path = Some (urp', r) →
  parents_closed urp'.
Proof.
  intros Hcl Hadd.
  destruct (callAdd_inv _ _ _ _ _ Hadd)
    as [(_ & -> & _)|(Hp & Hc & l & x & Hcl' & Hx & _ & -> & _)]; [done|].
  intros y q Hy Hyq. unfold moved, inserted in *. simpl in *.
  assert (Hl : ∀ a, proper_ancestor a path → a ∈ l)
    by (intros a; by eapply climbs_complete).
  apply elem_of_union.
  destruct (decide (y = path)) as [->|Hne]; [left; apply elem_of_list_to_set, Hl; by apply tc_once|].
  destruct (decide (y ∈ l)) as [Hyl|Hyl].
  - left. apply elem_of_list_to_set, Hl. eapply tc_r; [|exact Hyq].
    by eapply climbs_ancestor.
  - right. apply (Hcl y q); [set_solver | done].
Qed.

Lemma reachable_inv urp : reachable urp → disjoint_dirs urp ∧ parents_closed urp.
Proof.
  unfold reachable.
  apply (rtc_ind_r (λ u, disjoint_dirs u ∧ parents_closed u)).
  - split; [unfold disjoint_dirs; set_solver|].
    intros x q Hx. set_solver.
  - intros urp1 urp2 _ (fuel & path & err & Hadd) [IHd IHc].
    split; [by eapply callAdd_keeps_disjoint | by eapply callAdd_keeps_closed].
Qed.

(** A returning call leaves its path tracked, in [childDirs] when it was
    new. *)
Lemma callAdd_tracks fuel urp path urp' r :
  callAdd fuel urp path = Some (urp', r) →
  path ∈ parentDirs urp' ∨ path ∈ childDirs urp'.
Proof.
  intros Hadd.
  destruct (callAdd_inv _ _ _ _ _ Hadd)
    as [(Hin & -> & _)|(Hp & Hc & l & x & Hcl & Hx & _ & -> & _)]; [done|].
  right. pose proof (climbs_start_fresh _ _ _ Hcl Hx) as Hfresh.
  unfold moved, inserted. simpl. set_solver.
Qed.

Lemma callAdd_parents_grow fuel urp path urp' r :
  callAdd fuel urp path = Some (urp', r) → parentDirs urp ⊆ parentDirs urp'.
Proof.
  intros Hadd.
  destruct (callAdd_inv _ _ _ _ _ Hadd)
    as [(_ & -> & _)|(_ & _ & l & x & _ & _ & _ & -> & _)]; [done|].
  unfold moved, inserted. simpl. set_solver.
Qed.

Lemma add_steps_parents_grow urp urp' :
  rtc add_step urp urp' → parentDirs urp ⊆ parentDirs urp'.
Proof.
  induction 1 as [|urp1 urp2 urp3 (fuel & path & err & Hadd) _ IH]; [done|].
  etrans; [by eapply callAdd_parents_grow | done].
Qed.

(** A depth that every parent step lowers bounds the iterations: the loop,
    and so [callAdd], returns within [S (depth path)] of them. *)
Lemma callAdd_loop_total (depth : P → nat) :
  (∀ p q, parent_of p q → depth q < depth p) →
  ∀ urp path, is_Some (callAdd_loop (S (depth path)) urp path).
Proof.
  intros Hdepth urp path.
  assert (Hgen : ∀ n urp path, depth path ≤ n →
                               is_Some (callAdd_loop (S n) urp path)).
  { clear urp path. induction n as [|n IH]; intros urp path Hn;
      cbn [callAdd_loop]; destruct (IsRoot path) eqn:Hr; try by eexists.
    - destruct (Dir path) as [q|e] eqn:Hd; [|by eexists].
      assert (depth q < depth path) by (by apply Hdepth). lia.
    - destruct (Dir path) as [q|e] eqn:Hd; [|by eexists].
      apply IH. assert (depth q < depth path) by (by apply Hdepth). lia. }
  by apply Hgen.
Qed.

Lemma callAdd_total (depth : P → nat) :
  (∀ p q, parent_of p q → depth q < depth p) →
  ∀ urp path, is_Some (callAdd (S (depth path)) urp path).
Proof.
  intros Hdepth urp path. unfold callAdd.
  repeat case_decide; try by eexists. by apply callAdd_loop_total.
Qed.

Lemma callAdds_reachable fuel paths urp :
  reachable urp → reachable (callAdds fuel paths urp).
Proof.
  unfold callAdds. revert urp.
  induction paths as [|path paths IH]; intros urp Hr; simpl; [done|].
  apply IH. destruct (callAdd fuel urp path) as [[urp' err]|] eqn:Hadd; [|done].
  eapply rtc_r; [exact Hr|]. by exists fuel, path, err.
Qed.

Lemma callAdds_steps fuel paths urp : rtc add_step urp (callAdds fuel paths urp).
Proof.
  unfold callAdds. revert urp.
  induction paths as [|path paths IH]; intros urp; simpl; [done|].
  destruct (callAdd fuel urp path) as [[urp' err]|] eqn:Hadd; [|done].
  eapply rtc_l; [|apply IH]. by exists fuel, path, err.
Qed.

Lemma new_reachable : reachable newUniqueRefreshPaths.
Proof. unfold reachable. done. Qed.

(** ** The properties of [callAdd] *)

(** C1, minimality: in a tracker built by any sequence of [callAdd] calls,
    two distinct paths of [childDirs] are never ancestor and descendant of
    one another. *)
Theorem callAdd_minimality urp a b :
  reachable urp → a ∈ childDirs urp → b ∈ childDirs urp → a ≠ b →
  ¬ proper_ancestor a b ∧ ¬ proper_ancestor b a.
Proof.
  intros Hr Ha Hb _. destruct (reachable_inv _ Hr) as [Hdis Hcl].
  unfold disjoint_dirs in Hdis.
  split; intros Hanc;
    eapply parents_closed_ancestor in Hanc; eauto; set_solver.
Qed.

(** C2, coverage: when [callAdd path] returns nil on a tracker built by
    [callAdd] calls, every proper ancestor of [path] is in [parentDirs] as
    the call returns; and when [path] was new and is not the root, the walk
    went up to a root, which is among them. *)
Theorem callAdd_coverage urp fuel path urp' :
  reachable urp → callAdd fuel urp path = Some (urp', None) →
  (∀ a, proper_ancestor a path → a ∈ parentDirs urp')
  ∧ (path ∉ parentDirs urp → path ∉ childDirs urp → IsRoot path = false →
     ∃ rt, IsRoot rt = true ∧ proper_ancestor rt path ∧ rt ∈ parentDirs urp').
Proof.
  intros Hr Hadd.
  assert (Hr' : reachable urp').
  { eapply rtc_r; [exact Hr|]. by exists fuel, path, None. }
  destruct (reachable_inv _ Hr') as [_ Hcl].
  assert (Hcov : ∀ a, proper_ancestor a path → a ∈ parentDirs urp').
  { intros a Hanc. eapply parents_closed_ancestor; [exact Hcl| |exact Hanc].
    destruct (callAdd_tracks _ _ _ _ _ Hadd); set_solver. }
  split; [exact Hcov|]. intros Hp Hc Hnr.
  destruct (callAdd_inv _ _ _ _ _ Hadd)
    as [(Hin & _ & _)|(_ & _ & l & x & Hcl' & Hx & _ & _ & Hnil)];
    [by destruct Hin|].
  assert (Hroot : IsRoot x = true).
  { destruct Hx as [Hx|[e He]]; [done|]. unfold stop_error in Hnil.
    rewrite He in Hnil. by destruct (IsRoot x). }
  destruct (climbs_end _ _ _ Hcl') as [->|Hin]; [congruence|].
  exists x. split_and!; [done | by eapply climbs_ancestor |].
  apply Hcov. by eapply climbs_ancestor.
Qed.

(** C3, disjointness: after every returning call of [callAdd] on a tracker
    built by [callAdd] calls, whether it returns nil or an error met while
    walking up, no path is in both [childDirs] and [parentDirs]. *)
Theorem callAdd_disjointness urp fuel path urp' err :
  reachable urp → callAdd fuel urp path = Some (urp', err) →
  childDirs urp' ∩ parentDirs urp' = ∅.
Proof.
  intros Hr Hadd. destruct (reachable_inv _ Hr) as [Hdis _].
  pose proof (callAdd_keeps_disjoint _ _ _ _ _ Hdis Hadd) as Hdis'.
  unfold disjoint_dirs in Hdis'. set_solver.
Qed.

(** C4, superseding: when [A] is in [childDirs] and [callAdd] returns nil
    for a proper descendant [D] of [A], then [A] has left [childDirs], [A]
    is in [parentDirs] and [D] is in [childDirs]. *)
Theorem callAdd_supersedes urp fuel A D urp' :
  reachable urp → A ∈ childDirs urp → proper_ancestor A D →
  callAdd fuel urp D = Some (urp', None) →
  (A ∉ childDirs urp') ∧ A ∈ parentDirs urp' ∧ D ∈ childDirs urp'.
Proof.
  intros Hr HA Hanc Hadd. destruct (reachable_inv _ Hr) as [Hdis Hcl].
  unfold disjoint_dirs in Hdis.
  destruct (callAdd_inv _ _ _ _ _ Hadd)
    as [(Hin & _ & _)|(Hp & Hc & l & x & Hcl' & Hx & _ & -> & _)].
  - assert (HAp : A ∈ parentDirs urp).
    { eapply parents_closed_ancestor; [exact Hcl| |exact Hanc].
      destruct Hin; set_solver. }
    destruct (proj1 (elem_of_disjoint _ _) Hdis A HA HAp).
  - pose proof (climbs_start_fresh _ _ _ Hcl' Hx) as Hfresh.
    pose proof (climbs_complete _ _ _ _ Hcl' Hx Hanc) as HAl.
    unfold moved, inserted. simpl. set_solver.
Qed.

(** C5, idempotence: after [callAdd path] has returned, on any tracker and
    with any result, a second [callAdd path] returns nil and leaves both
    maps as the first call left them. *)
Theorem callAdd_idempotent urp fuel path urp' err fuel' :
  callAdd fuel urp path = Some (urp', err) →
  callAdd fuel' urp' path = Some (urp', None).
Proof.
  intros Hadd. apply callAdd_tracked. by eapply callAdd_tracks.
Qed.

(** C6, error propagation: when [callAdd] walks up from a new [path]
    through the parents [l] to a non-root [x] whose [Dir] fails with [e], it
    returns [e] with the one context string naming [x], [e] itself being
    kept inside, and stops there: [path] stays in [childDirs] and the
    parents of [l] stay moved to [parentDirs]. *)
Theorem callAdd_error_propagated urp fuel path l x e :
  path ∉ parentDirs urp → path ∉ childDirs urp →
  climbs path l x → IsRoot x = false → Dir x = Err e → length l < fuel →
  callAdd fuel urp path
  = Some (moved l (inserted path urp),
          Some (AddContext e ("unable to get parent directory of " +:+ String x)))
  ∧ Contains (AddContext e ("unable to get parent directory of " +:+ String x)) e.
Proof.
  intros Hp Hc Hcl Hr Hd Hn. split.
  - rewrite (callAdd_run fuel urp path l x); try done.
    + unfold stop_error, contextStr. by rewrite Hr, Hd.
    + right. by exists e.
    + unfold iterations. rewrite Hr. lia.
  - apply Contains_context, Contains_here.
Qed.

(** C8, the root: [callAdd] of the root on a new tracker returns nil with
    [childDirs] holding the root alone and [parentDirs] empty, and enters
    the loop not once: no iteration is needed. *)
Theorem callAdd_root fuel path :
  IsRoot path = true →
  callAdd fuel newUniqueRefreshPaths path
  = Some ({| childDirs := {[path]}; parentDirs := ∅ |}, None)
  ∧ callAdd 0 newUniqueRefreshPaths path = callAdd fuel newUniqueRefreshPaths path.
Proof.
  intros Hr.
  assert (Hany : ∀ n, callAdd n newUniqueRefreshPaths path
                      = Some ({| childDirs := {[path]}; parentDirs := ∅ |}, None)).
  { intros n. unfold callAdd. simpl.
    rewrite decide_False, decide_False by set_solver.
    destruct n; simpl; rewrite Hr; do 2 f_equal; f_equal; set_solver. }
  by rewrite !Hany.
Qed.

(** ** The refresh methods *)

Lemma callRefreshAll_loop_app (keys : list P) (started : list (goroutine P)) :
  callRefreshAll_loop keys started
  = started ++ (GoThreadedBubbleMetadata <$> keys).
Proof.
  revert started. induction keys as [|sp keys IH]; intros started; simpl.
  - by rewrite app_nil_r.
  - by rewrite IH, <- app_assoc.
Qed.

Lemma goroutine_path_started (keys : list P) :
  goroutine_path <$> (GoThreadedBubbleMetadata <$> keys) = keys.
Proof. induction keys as [|sp keys IH]; csimpl; [done | by f_equal]. Qed.

Lemma Compose_None (oa ob : option error) :
  Compose oa ob = None ↔ oa = None ∧ ob = None.
Proof. destruct oa, ob; unfold Compose; simpl; naive_solver. Qed.

Lemma Compose_Contains_l (oa ob : option error) e e' :
  oa = Some e → Contains e e' → ∃ e1, Compose oa ob = Some e1 ∧ Contains e1 e'.
Proof.
  intros -> He. destruct ob; unfold Compose; simpl; eexists; (split; [done|]);
    (eapply Contains_set; [|exact He]); set_solver.
Qed.

Lemma Compose_Contains_r (oa ob : option error) e e' :
  ob = Some e → Contains e e' → ∃ e1, Compose oa ob = Some e1 ∧ Contains e1 e'.
Proof.
  intros -> He. destruct oa; unfold Compose; simpl; eexists; (split; [done|]);
    (eapply Contains_set; [|exact He]); set_solver.
Qed.

Section blocking_loop.
Variable R : Type.
Variable managedBubbleMetadata : P → R → R * option error.

(** The loop makes the calls of [attempt_all], appends them to its log, and
    keeps every error: what it held, and what each call returned. *)
Lemma callRefreshAllBlocking_loop_inv keys r log err r' log' err' :
  callRefreshAllBlocking_loop R managedBubbleMetadata keys r log err
  = (r', log', err') →
  ∃ res, attempt_all R managedBubbleMetadata keys r = (r', res) ∧
         log' = log ++ res ∧
         (err' = None ↔ err = None ∧ ∀ sp o, (sp, o) ∈ res → o = None) ∧
         (∀ e e', err = Some e → Contains e e' →
                  ∃ e1, err' = Some e1 ∧ Contains e1 e') ∧
         (∀ sp e, (sp, Some e) ∈ res → ∃ e1, err' = Some e1 ∧ Contains e1 e).
Proof.
  revert r log err. induction keys as [|sp keys IH]; intros r log err; simpl.
  - intros [= <- <- <-]. exists []. rewrite app_nil_r.
    split_and!; [done..| | |].
    + split; [intros ->; split; [done|] | by intros [-> _]].
      intros sp o Hin. by apply elem_of_nil in Hin.
    + intros e e' -> He. by exists e.
    + intros sp e Hin. by apply elem_of_nil in Hin.
  - destruct (managedBubbleMetadata sp r) as [r1 o1] eqn:Hcall. intros Hloop.
    destruct (IH _ _ _ Hloop) as (res & Hall & -> & Hnone & Hold & Hnew).
    rewrite Hall. exists ((sp, o1) :: res).
    split_and!; [done | by rewrite <- app_assoc | | |].
    + rewrite Hnone, Compose_None. split.
      * intros [[-> ->] Hres]. split; [done|]. intros sp' o Hin.
        apply elem_of_cons in Hin as [[= -> ->]|Hin]; [done | by eapply Hres].
      * intros [-> Hres]. split_and!; [done | |].
        -- eapply Hres. apply elem_of_cons. by left.
        -- intros sp' o Hin. eapply Hres. apply elem_of_cons. by right.
    + intros e e' -> He.
      destruct (Compose_Contains_l (Some e) o1 e e' eq_refl He) as (e1 & He1 & Hc1).
      by eapply Hold.
    + intros sp' e Hin. apply elem_of_cons in Hin as [[= -> <-]|Hin].
      * destruct (Compose_Contains_r err (Some e) e e eq_refl (Contains_here e))
          as (e1 & He1 & Hc1).
        by eapply Hold.
      * by eapply Hnew.
Qed.

Lemma attempt_all_keys keys r r' res :
  attempt_all R managedBubbleMetadata keys r = (r', res) → res.*1 = keys.
Proof.
  revert r r' res. induction keys as [|sp keys IH]; intros r r' res; simpl.
  - by intros [= <- <-].
  - destruct (managedBubbleMetadata sp r) as [r1 o1].
    destruct (attempt_all R managedBubbleMetadata keys r1) as [r2 rest] eqn:Hall.
    intros [= <- <-]. simpl. f_equal. by eapply IH.
Qed.

End blocking_loop.

(** C7, error aggregation: [callRefreshAllBlocking] calls the blocking bubble
    on every path of [childDirs], once each and whatever the earlier calls
    returned; every error a call returns is kept inside the error it returns;
    and it returns nil exactly when every call returned nil.  It leaves the
    tracker as it was. *)
Theorem callRefreshAllBlocking_aggregates
    (R : Type) (managedBubbleMetadata : P → R → R * option error)
    urp keys r urp' r' log err :
  range_order (childDirs urp) keys →
  callRefreshAllBlocking R managedBubbleMetadata keys urp r
  = (urp', r', log, err) →
  attempt_all R managedBubbleMetadata keys r = (r', log)
  ∧ log.*1 ≡ₚ elements (childDirs urp)
  ∧ (∀ sp, sp ∈ childDirs urp ↔ ∃ o, (sp, o) ∈ log)
  ∧ (∀ sp e, (sp, Some e) ∈ log → ∃ e1, err = Some e1 ∧ Contains e1 e)
  ∧ (err = None ↔ ∀ sp o, (sp, o) ∈ log → o = None)
  ∧ urp' = urp.
Proof.
  unfold range_order, callRefreshAllBlocking. intros Hkeys.
  destruct (callRefreshAllBlocking_loop R managedBubbleMetadata keys r [] None)
    as [[r1 log1] err1] eqn:Hloop.
  intros [= <- <- <- <-].
  destruct (callRefreshAllBlocking_loop_inv _ _ _ _ _ _ _ _ _ Hloop)
    as (res & Hall & -> & Hnone & _ & Hnew).
  simpl. pose proof (attempt_all_keys _ _ _ _ _ _ Hall) as Hfst.
  split_and!; [done | by rewrite Hfst | | done | naive_solver | done].
  intros sp. rewrite <- elem_of_elements, <- Hkeys, <- Hfst, list_elem_of_fmap.
  split.
  - intros [[sp' o] [-> Hin]]. by exists o.
  - intros [o Hin]. by exists (sp, o).
Qed.

(** C9, dispatch count: [callRefreshAll] starts one goroutine for each path
    of [childDirs] and no other: the paths started are those of [childDirs],
    each once, [callNumChildDirs] of them, and both maps are left as they
    were. *)
Theorem callRefreshAll_dispatch urp keys started urp' started' :
  range_order (childDirs urp) keys →
  callRefreshAll keys urp started = (urp', started') →
  ∃ new, started' = started ++ new
         ∧ goroutine_path <$> new ≡ₚ elements (childDirs urp)
         ∧ NoDup (goroutine_path <$> new)
         ∧ length new = callNumChildDirs urp
         ∧ (∀ sp, sp ∈ childDirs urp ↔ GoThreadedBubbleMetadata sp ∈ new)
         ∧ childDirs urp' = childDirs urp
         ∧ parentDirs urp' = parentDirs urp.
Proof.
  unfold range_order, callRefreshAll. intros Hkeys [= <- <-].
  exists (GoThreadedBubbleMetadata <$> keys).
  rewrite goroutine_path_started.
  split_and!; [apply callRefreshAll_loop_app | done | | | | done..].
  - rewrite Hkeys. apply NoDup_elements.
  - rewrite length_fmap, Hkeys. done.
  - intros sp. rewrite <- elem_of_elements, <- Hkeys, list_elem_of_fmap.
    split; [by exists sp | by intros [sp' [[= ->] Hin]]].
Qed.

(** C10, the parent set only grows: a path of [parentDirs] stays there
    through every later [callAdd] and both refresh methods; [callAdd] of that
    very path returns nil and changes nothing; and the path is never in
    [childDirs] again. *)
Theorem parentDirs_monotone
    (R : Type) (managedBubbleMetadata : P → R → R * option error)
    urp urp' p :
  reachable urp → p ∈ parentDirs urp → rtc add_step urp urp' →
  p ∈ parentDirs urp'
  ∧ (p ∉ childDirs urp')
  ∧ (∀ fuel, callAdd fuel urp' p = Some (urp', None))
  ∧ (∀ keys started, (callRefreshAll keys urp' started).1 = urp')
  ∧ (∀ keys r,
       (callRefreshAllBlocking R managedBubbleMetadata keys urp' r).1.1.1 = urp').
Proof.
  intros Hr Hp Hsteps.
  assert (Hp' : p ∈ parentDirs urp')
    by (by apply (add_steps_parents_grow _ _ Hsteps)).
  assert (Hr' : reachable urp') by (unfold reachable; by etrans).
  destruct (reachable_inv _ Hr') as [Hdis _].
  split_and!; [done | | | done |].
  - intros Hc. exact (proj1 (elem_of_disjoint _ _) Hdis p Hc Hp').
  - intros fuel. apply callAdd_tracked. by left.
  - intros keys r. unfold callRefreshAllBlocking.
    by destruct (callRefreshAllBlocking_loop R managedBubbleMetadata keys r [] None)
      as [[r1 log1] err1].
Qed.

End chain.

(** ** The tracker at work on slash-delimited paths *)

(** ** What the tracker holds after a sequence of adds *)

Section tracker.
Context {P : Type} {EqP : EqDecision P} {CountP : Countable P}
        {PathP : TurtleDexPath P}.
Implicit Types (p q c x : P) (l ps : list P) (urp : uniqueRefreshPaths P).

Lemma added_reachable ps urp : added ps urp → reachable urp.
Proof.
  induction 1 as [|ps urp fuel path urp' err _ IH Hadd]; [apply new_reachable|].
  eapply rtc_r; [exact IH|]. by exists fuel, path, err.
Qed.

Lemma added_callAdds fuel ps0 urp ps :
  added ps0 urp → callAdds_return fuel ps urp = true →
  added (ps0 ++ ps) (callAdds fuel ps urp).
Proof.
  revert ps0 urp. induction ps as [|path ps IH]; intros ps0 urp Hadded Hret.
  - by rewrite app_nil_r.
  - simpl in Hret. unfold callAdds. simpl.
    destruct (callAdd fuel urp path) as [[urp' err]|] eqn:Hadd; [|done].
    replace (ps0 ++ path :: ps) with ((ps0 ++ [path]) ++ ps)
      by (by rewrite <- app_assoc).
    apply IH; [|done]. by eapply added_call.
Qed.

Lemma proper_ancestor_trans (a b c : P) :
  proper_ancestor a b → proper_ancestor b c → proper_ancestor a c.
Proof. unfold proper_ancestor. intros Hab Hbc. by etrans. Qed.

(** The contents of both maps, read off the paths added. *)
Lemma added_spec ps urp :
  added ps urp →
  (∀ x, x ∈ parentDirs urp ↔ ∃ p, p ∈ ps ∧ proper_ancestor x p)
  ∧ (∀ c, c ∈ childDirs urp ↔ c ∈ ps ∧ c ∉ parentDirs urp).
Proof.
  induction 1 as [|ps urp fuel path urp' err Hadded [IHp IHc] Hadd].
  - split; intros x; simpl.
    + split; [set_solver|]. intros (p & Hp & _). by apply elem_of_nil in Hp.
    + split; [set_solver|]. intros [Hp _]. by apply elem_of_nil in Hp.
  - destruct (reachable_inv _ (added_reachable _ _ Hadded)) as [Hdis Hcl].
    unfold disjoint_dirs in Hdis.
    destruct (callAdd_inv _ _ _ _ _ Hadd)
      as [(Hin & -> & _)|(Hp & Hc & l & x0 & Hcl' & Hx & _ & -> & _)].
    + split; intros x.
      * rewrite IHp. split.
        -- intros (p & Hpin & Hanc). exists p. split; [|done].
           apply elem_of_app. by left.
        -- intros (p & Hpin & Hanc).
           apply elem_of_app in Hpin as [Hpin|Hpin]; [by exists p|].
           apply list_elem_of_singleton in Hpin as ->. apply IHp.
           eapply parents_closed_ancestor; [exact Hcl| |exact Hanc].
           destruct Hin; set_solver.
      * rewrite IHc. split.
        -- intros [Hxin Hnp]. split; [|done]. apply elem_of_app. by left.
        -- intros [Hxin Hnp]. split; [|done].
           apply elem_of_app in Hxin as [Hxin|Hxin]; [done|].
           apply list_elem_of_singleton in Hxin as ->.
           destruct Hin as [Hin|Hin]; [done | by apply IHc in Hin as [? _]].
    + pose proof (climbs_start_fresh _ _ _ Hcl' Hx) as Hfresh.
      assert (Hl : ∀ y, y ∈ l ↔ proper_ancestor y path).
      { intros y. split; [by eapply climbs_ancestor | by eapply climbs_complete]. }
      split; intros x; unfold moved, inserted; simpl.
      * rewrite elem_of_union, elem_of_list_to_set, Hl, IHp. split.
        -- intros [Hanc|(p & Hpin & Hanc)].
           ++ exists path. split; [|done]. apply elem_of_app. right.
              by apply list_elem_of_singleton.
           ++ exists p. split; [|done]. apply elem_of_app. by left.
        -- intros (p & Hpin & Hanc).
           apply elem_of_app in Hpin as [Hpin|Hpin]; [right; by exists p|].
           apply list_elem_of_singleton in Hpin as ->. by left.
      * rewrite elem_of_difference, !elem_of_union, elem_of_singleton,
          !elem_of_list_to_set, IHc, elem_of_app, list_elem_of_singleton.
        split.
        -- intros [[->|[Hxin Hnp]] Hnl]; (split; [auto|]); intros [?|?]; done.
        -- intros [[Hxin| ->] Hnot]; (split; [|intros ?; apply Hnot; by left]).
           ++ right. split; [done|]. intros ?. apply Hnot. by right.
           ++ by left.
Qed.

(** X1: after [callAdd] has been called on the paths [ps], [parentDirs]
    holds exactly the proper ancestors of the paths of [ps], and [childDirs]
    exactly the paths of [ps] that are not in [parentDirs]. *)
Theorem added_characterised ps urp :
  added ps urp →
  (∀ x, x ∈ parentDirs urp ↔ ∃ p, p ∈ ps ∧ proper_ancestor x p)
  ∧ (∀ c, c ∈ childDirs urp ↔ c ∈ ps ∧ c ∉ parentDirs urp).
Proof. apply added_spec. Qed.

(** X2: the order of the adds, and adding a path more than once, make no
    difference: two sequences of adds over the same paths end in the same
    tracker. *)
Theorem added_order_independent ps ps' urp urp' :
  added ps urp → added ps' urp' → (∀ p, p ∈ ps ↔ p ∈ ps') → urp = urp'.
Proof.
  intros [Hp Hc]%added_spec [Hp' Hc']%added_spec Hsame.
  assert (Hpar : parentDirs urp = parentDirs urp').
  { apply set_eq. intros x. rewrite Hp, Hp'.
    split; intros (p & Hin & Hanc); exists p; (split; [by apply Hsame | done]). }
  assert (Hchi : childDirs urp = childDirs urp').
  { apply set_eq. intros c. rewrite Hc, Hc', Hpar, Hsame. done. }
  destruct urp, urp'. simpl in *. by subst.
Qed.

(** Each parent is a proper ancestor of some child. *)
Lemma callAdd_keeps_parents_covered fuel urp path urp' err :
  (∀ x, x ∈ parentDirs urp → ∃ c, c ∈ childDirs urp ∧ proper_ancestor x c) →
  callAdd fuel urp path = Some (urp', err) →
  ∀ x, x ∈ parentDirs urp' → ∃ c, c ∈ childDirs urp' ∧ proper_ancestor x c.
Proof.
  intros Hcov Hadd.
  destruct (callAdd_inv _ _ _ _ _ Hadd)
    as [(_ & -> & _)|(Hp & Hc & l & x0 & Hcl & Hx & _ & -> & _)]; [done|].
  pose proof (climbs_start_fresh _ _ _ Hcl Hx) as Hfresh.
  assert (Hpath : path ∈ childDirs (moved l (inserted path urp))).
  { unfold moved, inserted. simpl. set_solver. }
  intros x Hin. unfold moved, inserted in Hin. simpl in Hin.
  apply elem_of_union in Hin as [Hin|Hin].
  - exists path. split; [done|].
    apply elem_of_list_to_set in Hin. by eapply climbs_ancestor.
  - destruct (Hcov x Hin) as (c & Hcin & Hanc).
    destruct (decide (c ∈ l)) as [Hcl'|Hcl'].
    + exists path. split; [done|]. eapply proper_ancestor_trans; [exact Hanc|].
      by eapply climbs_ancestor.
    + exists c. split; [|done]. unfold moved, inserted. simpl. set_solver.
Qed.

Lemma reachable_parents_covered urp :
  reachable urp →
  ∀ x, x ∈ parentDirs urp → ∃ c, c ∈ childDirs urp ∧ proper_ancestor x c.
Proof.
  unfold reachable.
  apply (rtc_ind_r (λ u, ∀ x, x ∈ parentDirs u →
                          ∃ c, c ∈ childDirs u ∧ proper_ancestor x c)).
  - intros x Hin. set_solver.
  - intros urp1 urp2 _ (fuel & path & err & Hadd) IH.
    by eapply callAdd_keeps_parents_covered.
Qed.

(** X3: the bubbles started from [childDirs] reach every directory the
    tracker was given: each added path is a child or a proper ancestor of a
    child, and each path of [parentDirs] is a proper ancestor of a child. *)
Theorem added_covered ps urp :
  added ps urp →
  (∀ p, p ∈ ps → covered (childDirs urp) p)
  ∧ (∀ x, x ∈ parentDirs urp →
          ∃ c, c ∈ childDirs urp ∧ proper_ancestor x c).
Proof.
  intros Hadded.
  pose proof (reachable_parents_covered _ (added_reachable _ _ Hadded)) as Hpar.
  split; [|exact Hpar]. intros p Hin.
  destruct (added_spec _ _ Hadded) as [_ Hc].
  destruct (decide (p ∈ parentDirs urp)) as [Hp|Hp].
  - right. by apply Hpar.
  - left. by apply Hc.
Qed.

(** X4: [childDirs] is the least set of added paths that covers them all:
    any set of added paths whose bubbles reach every added path holds every
    child, so it has at least [callNumChildDirs] directories. *)
Theorem childDirs_least_cover ps urp (S : gset P) :
  added ps urp → (∀ s, s ∈ S → s ∈ ps) → (∀ p, p ∈ ps → covered S p) →
  childDirs urp ⊆ S ∧ callNumChildDirs urp ≤ size S.
Proof.
  intros [Hp Hc]%added_spec Hsub Hcov.
  assert (Hincl : childDirs urp ⊆ S).
  { intros c [Hin Hnp]%Hc. destruct (Hcov c Hin) as [HS|(s & HS & Hanc)]; [done|].
    destruct Hnp. apply Hp. exists s. split; [by apply Hsub | done]. }
  split; [done|]. unfold callNumChildDirs. by apply subseteq_size.
Qed.

(** X5: [callAdd] leaves alone every path other than the one added and its
    proper ancestors: such a path is in [childDirs], or in [parentDirs],
    after the call exactly when it was before. *)
Theorem callAdd_frame fuel urp path urp' err y :
  callAdd fuel urp path = Some (urp', err) →
  y ≠ path → ¬ proper_ancestor y path →
  (y ∈ childDirs urp' ↔ y ∈ childDirs urp)
  ∧ (y ∈ parentDirs urp' ↔ y ∈ parentDirs urp).
Proof.
  intros Hadd Hne Hnanc.
  destruct (callAdd_inv _ _ _ _ _ Hadd)
    as [(_ & -> & _)|(Hp & Hc & l & x0 & Hcl & Hx & _ & -> & _)]; [done|].
  assert (Hyl : y ∉ l) by (intros Hin; apply Hnanc; by eapply climbs_ancestor).
  unfold moved, inserted. simpl. set_solver.
Qed.

(** X6: [callAdd] never lets go of a directory: a path that is in one of the
    two maps before the call is in one of them after it. *)
Theorem callAdd_keeps_tracked fuel urp path urp' err y :
  callAdd fuel urp path = Some (urp', err) →
  y ∈ childDirs urp ∪ parentDirs urp → y ∈ childDirs urp' ∪ parentDirs urp'.
Proof.
  intros Hadd Hin.
  destruct (callAdd_inv _ _ _ _ _ Hadd)
    as [(_ & -> & _)|(Hp & Hc & l & x0 & Hcl & Hx & _ & -> & _)]; [done|].
  unfold moved, inserted. simpl.
  destruct (decide (y ∈ l)); set_solver.
Qed.

(** X7: an error comes from [Dir] alone: when [callAdd] returns an error,
    [Dir] has failed on the path added or on one of its proper ancestors,
    which is not the root, and the error returned is that failure with the
    context string naming that path. *)
Theorem callAdd_error_origin fuel urp path urp' e :
  callAdd fuel urp path = Some (urp', Some e) →
  ∃ x e0, (x = path ∨ proper_ancestor x path)
          ∧ IsRoot x = false ∧ Dir x = Err e0
          ∧ e = AddContext e0 (contextStr x)
          ∧ x ∈ childDirs urp' ∪ parentDirs urp'.
Proof.
  intros Hadd.
  destruct (callAdd_inv _ _ _ _ _ Hadd)
    as [(_ & _ & [=])|(Hp & Hc & l & x & Hcl & Hx & _ & -> & Herr)].
  unfold stop_error in Herr.
  destruct (IsRoot x) eqn:Hr; [done|].
  destruct (Dir x) as [q|e0] eqn:Hd; [done|]. injection Herr as ->.
  pose proof (climbs_start_fresh _ _ _ Hcl Hx) as Hfresh.
  exists x, e0. split_and!; [|done..|].
  - destruct (climbs_end _ _ _ Hcl) as [->|Hin]; [by left|].
    right. by eapply climbs_ancestor.
  - unfold moved, inserted. simpl.
    destruct (climbs_end _ _ _ Hcl) as [<-|Hin]; set_solver.
Qed.

Lemma climbs_NoDup p l x : climbs p l x → stops x → NoDup l.
Proof.
  induction 1 as [p|p q l x Hpq Hc IH]; intros Hx; [constructor|].
  constructor; [by eapply climbs_start_fresh | by apply IH].
Qed.

Lemma callAdd_child_count fuel urp path urp' err :
  callAdd fuel urp path = Some (urp', err) →
  callNumChildDirs urp' ≤ S (callNumChildDirs urp).
Proof.
  intros Hadd. unfold callNumChildDirs.
  destruct (callAdd_inv _ _ _ _ _ Hadd)
    as [(_ & -> & _)|(Hp & Hc & l & x0 & Hcl & Hx & _ & -> & _)]; [lia|].
  unfold moved, inserted. simpl.
  etrans; [apply (subseteq_size _ ({[path]} ∪ childDirs urp)); set_solver|].
  rewrite size_union_alt, size_singleton.
  assert (Hle : size (childDirs urp ∖ {[path]}) ≤ size (childDirs urp))
    by (apply subseteq_size; set_solver).
  lia.
Qed.

(** X8: one [callAdd] raises [callNumChildDirs] by one at most, and never
    lowers [callNumParentDirs]. *)
Theorem callAdd_counts fuel urp path urp' err :
  callAdd fuel urp path = Some (urp', err) →
  callNumChildDirs urp' ≤ S (callNumChildDirs urp)
  ∧ callNumParentDirs urp ≤ callNumParentDirs urp'.
Proof.
  intros Hadd. split; [by eapply callAdd_child_count|].
  unfold callNumParentDirs. apply subseteq_size.
  by eapply callAdd_parents_grow.
Qed.

(** X9: after adds of the paths [ps], [callNumChildDirs] is at most the
    number of adds, and it is zero only when nothing was added. *)
Theorem added_child_count ps urp :
  added ps urp →
  callNumChildDirs urp ≤ length ps ∧ (callNumChildDirs urp = 0 ↔ ps = []).
Proof.
  intros Hadded. split.
  - induction Hadded as [|ps urp fuel path urp' err _ IH Hadd]; [done|].
    rewrite length_app. simpl.
    pose proof (callAdd_child_count _ _ _ _ _ Hadd). lia.
  - split.
    + intros Hzero. destruct ps as [|p ps]; [done|]. exfalso.
      assert (Hempty : childDirs urp = ∅)
        by (by apply leibniz_equiv, size_empty_iff).
      assert (Hp : p ∈ p :: ps) by (apply elem_of_cons; by left).
      destruct (added_spec _ _ Hadded) as [_ Hc].
      destruct (decide (p ∈ parentDirs urp)) as [Hpar|Hpar].
      * destruct (reachable_parents_covered _ (added_reachable _ _ Hadded) p Hpar)
          as (c & Hcin & _).
        rewrite Hempty in Hcin. set_solver.
      * assert (Hcin : p ∈ childDirs urp) by (by apply Hc).
        rewrite Hempty in Hcin. set_solver.
    + intros ->. inversion Hadded as [|ps' ? ? ? ? ? ? ? Heq]; [done|].
      by destruct ps'.
Qed.

(** X10: the first add, on a new tracker: [childDirs] holds the path alone,
    and [parentDirs] holds the parents the loop went through, one for each
    iteration that got a parent. *)
Theorem callAdd_first fuel path urp' err :
  callAdd fuel newUniqueRefreshPaths path = Some (urp', err) →
  childDirs urp' = {[path]} ∧ callNumChildDirs urp' = 1
  ∧ ∃ l x, climbs path l x ∧ stops x ∧ err = stop_error x
           ∧ parentDirs urp' = list_to_set l
           ∧ callNumParentDirs urp' = length l.
Proof.
  intros Hadd.
  destruct (callAdd_inv _ _ _ _ _ Hadd)
    as [(Hin & _ & _)|(Hp & Hc & l & x & Hcl & Hx & _ & -> & ->)];
    [destruct Hin; set_solver|].
  pose proof (climbs_start_fresh _ _ _ Hcl Hx) as Hfresh.
  assert (Hchild : childDirs (moved l (inserted path newUniqueRefreshPaths))
                   = {[path]}).
  { unfold moved, inserted. simpl. set_solver. }
  assert (Hpar : parentDirs (moved l (inserted path newUniqueRefreshPaths))
                 = list_to_set l).
  { unfold moved, inserted. simpl. set_solver. }
  split_and!; [done | |].
  - unfold callNumChildDirs. by rewrite Hchild, size_singleton.
  - exists l, x. split_and!; [done..|].
    unfold callNumParentDirs. rewrite Hpar.
    apply size_list_to_set. by eapply climbs_NoDup.
Qed.

(** X11: with no child directory, the refresh methods do nothing:
    [callRefreshAll] starts no goroutine, and [callRefreshAllBlocking] makes
    no call, leaves the renter as it is and returns nil. *)
Theorem refresh_nothing_tracked
    (R : Type) (managedBubbleMetadata : P → R → R * option error)
    urp keys (started : list (goroutine P)) (r : R) :
  callNumChildDirs urp = 0 → range_order (childDirs urp) keys →
  callRefreshAll keys urp started = (urp, started)
  ∧ callRefreshAllBlocking R managedBubbleMetadata keys urp r
    = (urp, r, [], None).
Proof.
  unfold callNumChildDirs, range_order. intros Hzero Hkeys.
  assert (Hempty : childDirs urp = ∅) by (by apply leibniz_equiv, size_empty_iff).
  rewrite Hempty, elements_empty in Hkeys.
  apply Permutation_nil_r in Hkeys as ->. done.
Qed.

(** The bound on the iterations does not show in the result: a call that
    returns within [fuel] returns the same with any larger bound. *)
Lemma callAdd_fuel_mono fuel fuel' urp path urp' err :
  callAdd fuel urp path = Some (urp', err) → fuel ≤ fuel' →
  callAdd fuel' urp path = Some (urp', err).
Proof.
  intros Hadd Hle.
  destruct (callAdd_inv _ _ _ _ _ Hadd)
    as [(Hin & -> & ->)|(Hp & Hc & l & x & Hcl & Hx & Hn & -> & ->)].
  - by apply callAdd_tracked.
  - apply callAdd_run; [done..|lia].
Qed.

(** X15: adds followed by a refresh reach every directory added: each added
    path is the path of a goroutine that [callRefreshAll] starts, or of a
    call that [callRefreshAllBlocking] makes, or a proper ancestor of one;
    and no more are started, or called, than paths were added. *)
Theorem refresh_covers_added
    (R : Type) (managedBubbleMetadata : P → R → R * option error)
    ps urp keys (r : R) :
  added ps urp → range_order (childDirs urp) keys →
  (∀ p, p ∈ ps →
        ∃ sp, (sp = p ∨ proper_ancestor p sp)
              ∧ GoThreadedBubbleMetadata sp ∈ (callRefreshAll keys urp []).2
              ∧ sp ∈ (callRefreshAllBlocking R managedBubbleMetadata
                        keys urp r).1.2.*1)
  ∧ length (callRefreshAll keys urp []).2 ≤ length ps
  ∧ length (callRefreshAllBlocking R managedBubbleMetadata keys urp r).1.2
    ≤ length ps.
Proof.
  unfold range_order. intros Hadded Hkeys.
  set (started := (callRefreshAll keys urp []).2).
  set (log := (callRefreshAllBlocking R managedBubbleMetadata keys urp r).1.2).
  assert (Hstarted : started = GoThreadedBubbleMetadata <$> keys).
  { unfold started, callRefreshAll. simpl.
    by rewrite callRefreshAll_loop_app. }
  assert (Hlog : log.*1 = keys).
  { unfold log, callRefreshAllBlocking.
    destruct (callRefreshAllBlocking_loop R managedBubbleMetadata keys r [] None)
      as [[r1 log1] err1] eqn:Hloop. simpl.
    destruct (callRefreshAllBlocking_loop_inv _ _ _ _ _ _ _ _ _ Hloop)
      as (res & Hall & -> & _). simpl.
    by eapply attempt_all_keys. }
  assert (Hcount : length keys ≤ length ps).
  { rewrite Hkeys. change (callNumChildDirs urp ≤ length ps).
    clear -Hadded. induction Hadded as [|ps urp fuel path urp' err _ IH Hadd];
      [done|].
    rewrite length_app. simpl.
    pose proof (callAdd_child_count _ _ _ _ _ Hadd). lia. }
  split_and!.
  - intros p Hin.
    assert (Hcov : covered (childDirs urp) p).
    { destruct (added_spec _ _ Hadded) as [_ Hc].
      destruct (decide (p ∈ parentDirs urp)) as [Hp|Hp].
      - right. by apply (reachable_parents_covered _ (added_reachable _ _ Hadded)).
      - left. by apply Hc. }
    assert (Hsp : ∃ sp, (sp = p ∨ proper_ancestor p sp) ∧ sp ∈ keys).
    { destruct Hcov as [Hc|(c & Hc & Hanc)].
      - exists p. split; [by left|]. by rewrite Hkeys, elem_of_elements.
      - exists c. split; [by right|]. by rewrite Hkeys, elem_of_elements. }
    destruct Hsp as (sp & Hrel & Hsp). exists sp. split_and!; [done| |].
    + rewrite Hstarted. apply list_elem_of_fmap. by exists sp.
    + by rewrite Hlog.
  - by rewrite Hstarted, length_fmap.
  - by rewrite <- (length_fmap fst), Hlog.
Qed.

End tracker.

(** ** The API password *)

Section api_password.
Import appdata.
Context {W : Type} {Sys : System W}.

Lemma hexdigit_high (v : ascii) :
  plain (hexdigit (N.shiftr (N_of_ascii v) 4)) = true
  ∧ hexdigit (N.shiftr (N_of_ascii v) 4) ∈ hextable.
Proof.
  destruct v as [[] [] [] [] [] [] [] []];
    (split; [vm_compute; reflexivity|]); vm_compute;
    repeat first [apply list_elem_of_here | apply list_elem_of_further].
Qed.

Lemma hexdigit_low (v : ascii) :
  plain (hexdigit (N.land (N_of_ascii v) 15)) = true
  ∧ hexdigit (N.land (N_of_ascii v) 15) ∈ hextable.
Proof.
  destruct v as [[] [] [] [] [] [] [] []];
    (split; [vm_compute; reflexivity|]); vm_compute;
    repeat first [apply list_elem_of_here | apply list_elem_of_further].
Qed.

Lemma hex_Encode_plain src : Forall (λ c, plain c = true) (hex_Encode src).
Proof.
  induction src as [|v src IH]; simpl; [constructor|].
  constructor; [apply hexdigit_high|]. constructor; [apply hexdigit_low | done].
Qed.

Lemma hex_Encode_digits src c : c ∈ hex_Encode src → c ∈ hextable.
Proof.
  induction src as [|v src IH]; simpl; [by intros ?%elem_of_nil|].
  rewrite !elem_of_cons. intros [->|[->|Hin]];
    [apply hexdigit_high | apply hexdigit_low | by apply IH].
Qed.

Lemma hex_Encode_length src : length (hex_Encode src) = 2 * length src.
Proof. induction src as [|v src IH]; simpl; [done | rewrite IH; lia]. Qed.

Lemma skip_asciiSpace_plain c l :
  plain c = true → skip_asciiSpace (c :: l) = (false, c :: l).
Proof.
  unfold plain. intros [Hlt Hsp]%andb_true_iff. simpl.
  apply N.ltb_lt in Hlt. apply negb_true_iff in Hsp.
  destruct (N.leb_spec 128 (N_of_ascii c)); [lia|]. by rewrite Hsp.
Qed.

Lemma list_ascii_of_string_app (s1 s2 : string) :
  String.list_ascii_of_string (s1 +:+ s2)
  = String.list_ascii_of_string s1 ++ String.list_ascii_of_string s2.
Proof. induction s1 as [|c s1 IH]; simpl; [done | by rewrite IH]. Qed.

Lemma length_string_of_list_ascii (l : list ascii) :
  String.length (String.string_of_list_ascii l) = length l.
Proof. induction l as [|c l IH]; simpl; [done | by rewrite IH]. Qed.

Lemma skip_asciiSpace_space c l :
  (N_of_ascii c <? 128)%N = true → asciiSpace c = true →
  skip_asciiSpace (c :: l) = skip_asciiSpace l.
Proof.
  intros Hlt%N.ltb_lt Hsp. cbn [skip_asciiSpace].
  destruct (N.leb_spec 128 (N_of_ascii c)); [lia|]. by rewrite Hsp.
Qed.

(** [TrimSpace] takes the line feed off a line of plain bytes, and nothing
    else. *)
Lemma TrimSpace_line (f g : string → string) (l : list ascii) :
  Forall (λ c, plain c = true) l →
  TrimSpace f g (String.string_of_list_ascii l +:+ String.String "010"%char "")
  = String.string_of_list_ascii l.
Proof.
  intros Hl. unfold TrimSpace.
  rewrite list_ascii_of_string_app, String.list_ascii_of_string_of_list_ascii.
  change (String.list_ascii_of_string (String.String "010"%char ""))
    with ["010"%char].
  destruct l as [|c l].
  { rewrite app_nil_l, skip_asciiSpace_space by reflexivity. done. }
  apply Forall_cons in Hl as Hcl. destruct Hcl as [Hc _].
  rewrite <- app_comm_cons, (skip_asciiSpace_plain _ _ Hc), app_comm_cons.
  rewrite rev_app_distr.
  change (rev ["010"%char] ++ rev (c :: l)) with ("010"%char :: rev (c :: l)).
  rewrite skip_asciiSpace_space by reflexivity.
  assert (Hrev : Forall (λ c, plain c = true) (rev (c :: l))).
  { apply Forall_forall. intros x Hx. rewrite Forall_forall in Hl.
    apply Hl. apply list_elem_of_In. apply in_rev. by apply list_elem_of_In. }
  destruct (rev (c :: l)) as [|d k] eqn:Hk.
  { apply (f_equal length) in Hk. rewrite length_rev in Hk. discriminate. }
  apply Forall_cons in Hrev as [Hd _].
  rewrite (skip_asciiSpace_plain _ _ Hd), <- Hk, rev_involutive. done.
Qed.

(** The steps of [createAPIPasswordFile] when it returns a password. *)
Lemma createAPIPasswordFile_inv w w' pw :
  createAPIPasswordFile w = (w', Ok pw) →
  ∃ w1 w2 w3 bytes,
    os_MkdirAll TurtleDexDir mode_0700 w = (w1, None)
    ∧ os_Chmod TurtleDexDir mode_0700 w1 = (w2, None)
    ∧ fastrand_Bytes 16 w2 = (w3, bytes)
    ∧ pw = hex_EncodeToString bytes
    ∧ ioutil_WriteFile apiPasswordFilePath
        (String.list_ascii_of_string (pw +:+ String.String "010"%char ""))
        mode_0600 w3 = (w', None).
Proof.
  unfold createAPIPasswordFile, mbind, io_bind, mret, io_ret, check, total.
  destruct (os_MkdirAll TurtleDexDir mode_0700 w) as [w1 [e|]] eqn:H1; [done|].
  destruct (os_Chmod TurtleDexDir mode_0700 w1) as [w2 [e|]] eqn:H2; [done|].
  destruct (fastrand_Bytes 16 w2) as [w3 bytes] eqn:H3.
  destruct (ioutil_WriteFile apiPasswordFilePath _ mode_0600 w3)
    as [w4 [e|]] eqn:H4; [done|].
  intros [= <- <-]. by exists w1, w2, w3, bytes.
Qed.

(** X12: the password is stable: when [APIPassword] returns a password, from
    the environment, from the file or newly made, the next call returns the
    same one and changes nothing, on a file system that gives back what was
    written. *)
Theorem APIPassword_stable w w' pw :
  read_after_write → APIPassword w = (w', Ok pw) →
  APIPassword w' = (w', Ok pw).
Proof.
  intros Hraw. unfold APIPassword.
  case_bool_decide as Henv; [by intros [= <- <-]|].
  destruct (ioutil_ReadFile apiPasswordFilePath w) as [pwFile|err] eqn:Hread.
  - intros [= <- <-]. by rewrite Hread.
  - destruct (os_IsNotExist err); simpl; [|done].
    unfold mbind, io_bind, mret, io_ret.
    destruct (createAPIPasswordFile w) as [w1 [pw1|e]] eqn:Hcreate; [|done].
    intros [= <- <-].
    destruct (createAPIPasswordFile_inv _ _ _ Hcreate)
      as (w2 & w3 & w4 & bytes & _ & _ & _ & -> & Hwrite).
    rewrite (Hraw _ _ _ _ _ Hwrite), String.string_of_list_ascii_of_string.
    unfold hex_EncodeToString. by rewrite TrimSpace_line by apply hex_Encode_plain.
Qed.

(** X13: a password made by [createAPIPasswordFile] is 32 digits of
    [0123456789abcdef], when [fastrand.Bytes] gives the 16 bytes asked for;
    and the password file then reads as the password and a line feed. *)
Theorem createAPIPasswordFile_password w w' pw :
  bytes_length → read_after_write →
  createAPIPasswordFile w = (w', Ok pw) →
  String.length pw = 32
  ∧ (∀ c, c ∈ String.list_ascii_of_string pw → c ∈ hextable)
  ∧ ioutil_ReadFile apiPasswordFilePath w'
    = Ok (String.list_ascii_of_string (pw +:+ String.String "010"%char "")).
Proof.
  intros Hlen Hraw Hcreate.
  destruct (createAPIPasswordFile_inv _ _ _ Hcreate)
    as (w1 & w2 & w3 & bytes & _ & _ & Hbytes & -> & Hwrite).
  pose proof (Hlen 16 w2) as Hlen16. rewrite Hbytes in Hlen16. simpl in Hlen16.
  unfold hex_EncodeToString. split_and!.
  - by rewrite length_string_of_list_ascii, hex_Encode_length, Hlen16.
  - intros c. rewrite String.list_ascii_of_string_of_list_ascii.
    apply hex_Encode_digits.
  - by eapply Hraw.
Qed.

(** X14: [APIPassword] writes nothing unless the password file is missing:
    with the variable set, or the file read, or the read failing for another
    reason than the file not existing, the world is left as it was. *)
Theorem APIPassword_no_write w :
  os_Getenv siaAPIPassword ≠ ""
  ∨ (∀ err, ioutil_ReadFile apiPasswordFilePath w = Err err →
            os_IsNotExist err = false) →
  (APIPassword w).1 = w
  ∧ (∀ err, os_Getenv siaAPIPassword = "" →
            ioutil_ReadFile apiPasswordFilePath w = Err err →
            (APIPassword w).2 = Err err).
Proof.
  intros Hcase. unfold APIPassword.
  case_bool_decide as Henv; [split; [done | by intros err ?]|].
  destruct Hcase as [Hset|Hread]; [done|].
  destruct (ioutil_ReadFile apiPasswordFilePath w) as [pwFile|err] eqn:Hr.
  - split; [done | by intros err _ [=]].
  - rewrite (Hread err eq_refl). simpl. split; [done|].
    by intros err' _ [= <-].
Qed.

End api_password.

Section examples.
Import SlashPath.

Ltac dirs_decide :=
  lazymatch goal with
  | |- _ ∉ _ => apply (bool_decide_eq_false_1 _); vm_compute; reflexivity
  | |- _ ∈ _ => apply (bool_decide_eq_true_1 _); vm_compute; reflexivity
  end.

Ltac parent_step := split; reflexivity.

(** On these paths every parent is shorter, so [callAdd] always returns. *)
Lemma slash_path_callAdd_returns (urp : uniqueRefreshPaths t) (path : t) :
  is_Some (callAdd (S (length path)) urp path).
Proof.
  apply (callAdd_total (length : t → nat)).
  intros [|s rest] q [Hr Hd]; [discriminate|].
  simpl in Hd. unfold dir in Hd.
  destruct (String.eqb s ""); [discriminate|].
  injection Hd as <-. simpl. lia.
Qed.

Example scenario_siblings :
  callAdds 3 [abc; abd] new
  = {| childDirs := {[abc; abd]}; parentDirs := {[ab; a; root]} |}.
Proof. vm_compute. reflexivity. Qed.

Example scenario_descendant :
  callAdds 3 [ab] new = {| childDirs := {[ab]}; parentDirs := {[a; root]} |}
  ∧ callAdds 3 [ab; abc] new
    = {| childDirs := {[abc]}; parentDirs := {[ab; a; root]} |}.
Proof. split; vm_compute; reflexivity. Qed.

Example scenario_corrupt :
  callAdd 3 new corrupt
  = Some ({| childDirs := {[corrupt]}; parentDirs := {[corrupt_dir]} |},
          Some (ErrContext (ErrNew "invalid path")
                           "unable to get parent directory of /a/")).
Proof. vm_compute. reflexivity. Qed.

Lemma callAdd_minimality_witness :
  ¬ proper_ancestor abc abd ∧ ¬ proper_ancestor abd abc.
Proof.
  apply (callAdd_minimality (callAdds 3 [ab; abc; abd] new) abc abd).
  - apply callAdds_reachable, new_reachable.
  - dirs_decide.
  - dirs_decide.
  - discriminate.
Defined.

Lemma callAdd_coverage_witness :
  root ∈ parentDirs (callAdds 3 [abc] new).
Proof.
  destruct (callAdd_coverage new 3 abc (callAdds 3 [abc] new)) as [Hcov _].
  - apply new_reachable.
  - vm_compute. reflexivity.
  - apply Hcov.
    eapply tc_l; [parent_step|]. eapply tc_l; [parent_step|].
    apply tc_once. parent_step.
Defined.

Lemma callAdd_disjointness_witness :
  childDirs (callAdds 3 [a; corrupt] new)
  ∩ parentDirs (callAdds 3 [a; corrupt] new) = ∅.
Proof.
  apply (callAdd_disjointness (callAdds 3 [a] new) 3 corrupt
           (callAdds 3 [a; corrupt] new)
           (Some (ErrContext (ErrNew "invalid path")
                             "unable to get parent directory of /a/"))).
  - apply callAdds_reachable, new_reachable.
  - vm_compute. reflexivity.
Defined.

Lemma callAdd_supersedes_witness :
  (ab ∉ childDirs (callAdds 3 [ab; abc] new))
  ∧ ab ∈ parentDirs (callAdds 3 [ab; abc] new)
  ∧ abc ∈ childDirs (callAdds 3 [ab; abc] new).
Proof.
  apply (callAdd_supersedes (callAdds 3 [ab] new) 3 ab abc).
  - apply callAdds_reachable, new_reachable.
  - dirs_decide.
  - apply tc_once. parent_step.
  - vm_compute. reflexivity.
Defined.

Lemma callAdd_idempotent_witness :
  callAdd 0 (callAdds 3 [corrupt] new) corrupt
  = Some (callAdds 3 [corrupt] new, None).
Proof.
  apply (callAdd_idempotent new 3 corrupt (callAdds 3 [corrupt] new)
           (Some (ErrContext (ErrNew "invalid path")
                             "unable to get parent directory of /a/")) 0).
  vm_compute. reflexivity.
Defined.

Lemma callAdd_error_propagated_witness :
  callAdd 2 (callAdds 3 [a] new) corrupt
  = Some (moved [corrupt_dir] (inserted corrupt (callAdds 3 [a] new)),
          Some (AddContext (ErrNew "invalid path")
                  ("unable to get parent directory of " +:+ String corrupt_dir)))
  ∧ Contains
      (AddContext (ErrNew "invalid path")
         ("unable to get parent directory of " +:+ String corrupt_dir))
      (ErrNew "invalid path").
Proof.
  apply (callAdd_error_propagated (callAdds 3 [a] new) 2 corrupt
           [corrupt_dir] corrupt_dir (ErrNew "invalid path")).
  - dirs_decide.
  - dirs_decide.
  - apply climbs_up; [parent_step | apply climbs_here].
  - reflexivity.
  - reflexivity.
  - simpl. lia.
Defined.

Lemma callAdd_root_witness :
  callAdd 5 new root = Some ({| childDirs := {[root]}; parentDirs := ∅ |}, None)
  ∧ callAdd 0 new root = callAdd 5 new root.
Proof. apply (callAdd_root 5 root). reflexivity. Defined.

Example scenario_blocking :
  let out := callRefreshAllBlocking nat bubble [dirA; dirB; dirC] tracked 0 in
  out.1.2 = [(dirA, Some (ErrNew "/a/bad")); (dirB, None);
             (dirC, Some (ErrNew "/c/bad"))]
  ∧ out.2 = Some (ErrSet [ErrSet [ErrSet [ErrNew "/a/bad"]]; ErrNew "/c/bad"]).
Proof. split; vm_compute; reflexivity. Qed.

Lemma callRefreshAllBlocking_aggregates_witness :
  ∃ e1,
    (callRefreshAllBlocking nat bubble (elements (childDirs tracked)) tracked 0).2
    = Some e1
    ∧ Contains e1 (ErrNew "/a/bad").
Proof.
  pose (out := callRefreshAllBlocking nat bubble
                 (elements (childDirs tracked)) tracked 0).
  destruct (callRefreshAllBlocking_aggregates nat bubble tracked
              (elements (childDirs tracked)) 0
              out.1.1.1 out.1.1.2 out.1.2 out.2)
    as (_ & _ & _ & Hkept & _).
  - unfold range_order. reflexivity.
  - vm_compute. reflexivity.
  - apply (Hkept dirA).
    change (out.1.2) with [(dirC, Some (ErrNew "/c/bad")); (dirB, None);
                           (dirA, Some (ErrNew "/a/bad"))].
    do 2 apply list_elem_of_further. apply list_elem_of_here.
Defined.

Lemma callRefreshAll_dispatch_witness :
  ∃ started,
    (callRefreshAll (elements (childDirs tracked)) tracked []).2 = [] ++ started
    ∧ length started = callNumChildDirs tracked.
Proof.
  pose (out := callRefreshAll (elements (childDirs tracked)) tracked []).
  destruct (callRefreshAll_dispatch tracked (elements (childDirs tracked)) []
              out.1 out.2)
    as (started & Hst & _ & _ & Hlen & _).
  - unfold range_order. reflexivity.
  - reflexivity.
  - exists started. split; [exact Hst | exact Hlen].
Defined.

Lemma parentDirs_monotone_witness :
  ab ∈ parentDirs (callAdds 3 [ab; abd] (callAdds 3 [abc] new))
  ∧ (ab ∉ childDirs (callAdds 3 [ab; abd] (callAdds 3 [abc] new))).
Proof.
  destruct (parentDirs_monotone nat bubble (callAdds 3 [abc] new)
              (callAdds 3 [ab; abd] (callAdds 3 [abc] new)) ab)
    as (Hin & Hnot & _).
  - apply callAdds_reachable, new_reachable.
  - dirs_decide.
  - apply callAdds_steps.
  - split; [exact Hin | exact Hnot].
Defined.

(** *** More adds *)

Lemma added_examples (ps : list t) :
  callAdds_return 3 ps new = true → added ps (callAdds 3 ps new).
Proof. intros Hret. exact (added_callAdds 3 [] new ps added_new Hret). Defined.

Lemma added_characterised_witness :
  (∀ x, x ∈ parentDirs (callAdds 3 [ab; abc; abd] new)
        ↔ ∃ p, p ∈ [ab; abc; abd] ∧ proper_ancestor x p)
  ∧ (∀ c, c ∈ childDirs (callAdds 3 [ab; abc; abd] new)
          ↔ c ∈ [ab; abc; abd] ∧ c ∉ parentDirs (callAdds 3 [ab; abc; abd] new)).
Proof.
  apply (added_characterised [ab; abc; abd]).
  apply added_examples. vm_compute. reflexivity.
Defined.

Lemma added_order_independent_witness :
  callAdds 3 [ab; abc] new = callAdds 3 [abc; ab; abc] new.
Proof.
  apply (added_order_independent [ab; abc] [abc; ab; abc]).
  - apply added_examples. vm_compute. reflexivity.
  - apply added_examples. vm_compute. reflexivity.
  - intros p. rewrite !elem_of_cons, !elem_of_nil. tauto.
Defined.

Lemma added_covered_witness :
  covered (childDirs (callAdds 3 [ab; abc] new)) ab.
Proof.
  destruct (added_covered [ab; abc] (callAdds 3 [ab; abc] new)) as [Hcov _].
  - apply added_examples. vm_compute. reflexivity.
  - apply Hcov. apply list_elem_of_here.
Defined.

Lemma childDirs_least_cover_witness :
  childDirs (callAdds 3 [ab; abc] new) ⊆ {[abc]}
  ∧ callNumChildDirs (callAdds 3 [ab; abc] new) ≤ size ({[abc]} : gset t).
Proof.
  apply (childDirs_least_cover [ab; abc]).
  - apply added_examples. vm_compute. reflexivity.
  - intros s ->%elem_of_singleton. apply list_elem_of_further, list_elem_of_here.
  - intros p. rewrite !elem_of_cons, elem_of_nil. intros [->|[->|[]]].
    + right. exists abc. split; [by apply elem_of_singleton|].
      apply tc_once. parent_step.
    + left. by apply elem_of_singleton.
Defined.

Lemma abc_climbs : climbs abc [ab; a; root] root.
Proof.
  apply climbs_up; [parent_step|]. apply climbs_up; [parent_step|].
  apply climbs_up; [parent_step|]. apply climbs_here.
Defined.

Lemma callAdd_frame_witness :
  (abd ∈ childDirs (callAdds 3 [abd; abc] new)
   ↔ abd ∈ childDirs (callAdds 3 [abd] new))
  ∧ (abd ∈ parentDirs (callAdds 3 [abd; abc] new)
     ↔ abd ∈ parentDirs (callAdds 3 [abd] new)).
Proof.
  apply (callAdd_frame 3 (callAdds 3 [abd] new) abc
           (callAdds 3 [abd; abc] new) None abd).
  - vm_compute. reflexivity.
  - discriminate.
  - intros Hanc.
    pose proof (climbs_complete abc [ab; a; root] root abd abc_climbs
                  (or_introl eq_refl) Hanc) as Hin.
    rewrite !elem_of_cons, elem_of_nil in Hin.
    destruct Hin as [?|[?|[?|[]]]]; discriminate.
Defined.

Lemma callAdd_keeps_tracked_witness :
  ab ∈ childDirs (callAdds 3 [ab; abc] new)
       ∪ parentDirs (callAdds 3 [ab; abc] new).
Proof.
  apply (callAdd_keeps_tracked 3 (callAdds 3 [ab] new) abc
           (callAdds 3 [ab; abc] new) None ab).
  - vm_compute. reflexivity.
  - apply elem_of_union_l. dirs_decide.
Defined.

Lemma callAdd_error_origin_witness :
  ∃ x e0, (x = corrupt ∨ proper_ancestor x corrupt)
          ∧ IsRoot x = false ∧ Dir x = Err e0
          ∧ ErrContext (ErrNew "invalid path")
              "unable to get parent directory of /a/"
            = AddContext e0 (contextStr x)
          ∧ x ∈ childDirs (callAdds 3 [corrupt] new)
                ∪ parentDirs (callAdds 3 [corrupt] new).
Proof.
  apply (callAdd_error_origin 3 new corrupt (callAdds 3 [corrupt] new)).
  vm_compute. reflexivity.
Defined.

Lemma callAdd_counts_witness :
  callNumChildDirs (callAdds 3 [ab; abc] new)
  ≤ S (callNumChildDirs (callAdds 3 [ab] new))
  ∧ callNumParentDirs (callAdds 3 [ab] new)
    ≤ callNumParentDirs (callAdds 3 [ab; abc] new).
Proof.
  apply (callAdd_counts 3 (callAdds 3 [ab] new) abc
           (callAdds 3 [ab; abc] new) None).
  vm_compute. reflexivity.
Defined.

Lemma added_child_count_witness :
  callNumChildDirs (callAdds 3 [ab; abc; abd] new) ≤ 3
  ∧ (callNumChildDirs (callAdds 3 [ab; abc; abd] new) = 0
     ↔ [ab; abc; abd] = []).
Proof.
  apply (added_child_count [ab; abc; abd]).
  apply added_examples. vm_compute. reflexivity.
Defined.

Lemma callAdd_first_witness :
  childDirs (callAdds 3 [abc] new) = {[abc]}
  ∧ callNumChildDirs (callAdds 3 [abc] new) = 1
  ∧ ∃ l x, climbs abc l x ∧ stops x ∧ None = stop_error x
           ∧ parentDirs (callAdds 3 [abc] new) = list_to_set l
           ∧ callNumParentDirs (callAdds 3 [abc] new) = length l.
Proof.
  apply (callAdd_first 3 abc (callAdds 3 [abc] new) None).
  vm_compute. reflexivity.
Defined.

Lemma refresh_nothing_tracked_witness :
  callRefreshAll [] new [GoThreadedBubbleMetadata ab]
  = (new, [GoThreadedBubbleMetadata ab])
  ∧ callRefreshAllBlocking nat bubble [] new 7 = (new, 7, [], None).
Proof.
  apply (refresh_nothing_tracked nat bubble new []).
  - vm_compute. reflexivity.
  - unfold range_order. vm_compute. reflexivity.
Defined.

End examples.

Section refresh_examples.
Import SlashPath.

Lemma refresh_covers_added_witness :
  (∀ p, p ∈ [ab; abc; abd] →
        ∃ sp, (sp = p ∨ proper_ancestor p sp)
              ∧ GoThreadedBubbleMetadata sp
                ∈ (callRefreshAll [abd; abc]
                     (callAdds 3 [ab; abc; abd] new) []).2
              ∧ sp ∈ (callRefreshAllBlocking nat bubble [abd; abc]
                        (callAdds 3 [ab; abc; abd] new) 0).1.2.*1)
  ∧ length (callRefreshAll [abd; abc] (callAdds 3 [ab; abc; abd] new) []).2
    ≤ length [ab; abc; abd]
  ∧ length (callRefreshAllBlocking nat bubble [abd; abc]
              (callAdds 3 [ab; abc; abd] new) 0).1.2
    ≤ length [ab; abc; abd].
Proof.
  apply (refresh_covers_added nat bubble [ab; abc; abd]
           (callAdds 3 [ab; abc; abd] new) [abd; abc] 0).
  - exact (added_callAdds 3 [] new [ab; abc; abd] added_new eq_refl).
  - unfold range_order. vm_compute. apply perm_swap || reflexivity.
Defined.

End refresh_examples.

(** ** The API password on the small system *)

Section api_password_examples.
Import appdata.

Lemma small_read_after_write : read_after_write (Sys := small).
Proof.
  intros path data mode w w' [= <-]. simpl.
  by rewrite lookup_insert_eq.
Qed.

Lemma small_bytes_length : bytes_length (Sys := small).
Proof. intros n w. simpl. by rewrite length_fmap, length_seq. Qed.

Example scenario_password_path :
  apiPasswordFilePath (Sys := small) = "/home/u/.sia/apipassword".
Proof. vm_compute. reflexivity. Qed.

Lemma APIPassword_stable_witness :
  APIPassword (APIPassword empty_world).1
  = ((APIPassword empty_world).1, Ok "33445566778899aabbccddeeff102132").
Proof.
  apply (APIPassword_stable empty_world).
  - exact small_read_after_write.
  - vm_compute. reflexivity.
Defined.

Lemma createAPIPasswordFile_password_witness :
  String.length "33445566778899aabbccddeeff102132" = 32
  ∧ (∀ c, c ∈ String.list_ascii_of_string "33445566778899aabbccddeeff102132" →
          c ∈ hextable)
  ∧ ioutil_ReadFile apiPasswordFilePath (createAPIPasswordFile empty_world).1
    = Ok (String.list_ascii_of_string
            ("33445566778899aabbccddeeff102132" +:+ String.String "010"%char "")).
Proof.
  apply (createAPIPasswordFile_password empty_world).
  - exact small_bytes_length.
  - exact small_read_after_write.
  - vm_compute. reflexivity.
Defined.

Lemma APIPassword_no_write_witness :
  (APIPassword (APIPassword empty_world).1).1 = (APIPassword empty_world).1
  ∧ (∀ err, os_Getenv siaAPIPassword = "" →
            ioutil_ReadFile apiPasswordFilePath (APIPassword empty_world).1
            = Err err →
            (APIPassword (APIPassword empty_world).1).2 = Err err).
Proof.
  apply (APIPassword_no_write (APIPassword empty_world).1).
  right. intros err Hread. vm_compute in Hread. discriminate.
Defined.

End api_password_examples.
